(** * Guitar Hero: the state reducer, the chart stream and the RNG

    A shallow embedding of [src/state.ts], [src/util.ts], the chart part of
    [src/observable.ts] and the constants and types of [src/types.ts].

    Number model.  A TypeScript [number] is an IEEE double.  Here the
    quantities that the program only ever uses as integers (counters, columns,
    pitches, RNG seeds and hashes) are [Z], and the others (positions, score,
    multiplier, times) are exact rationals [Q].  The remainder operator [%]
    is [Z.rem] (the sign of the result follows the dividend), [Math.round] is
    [floor (x + 1/2)], and the literal [0.2] is the rational [2/10].

    The counters of a game stay many orders of magnitude below 2^53, where
    double arithmetic on integers is exact, and are computed exactly.  The
    products of the random number generator are not: from the third number of
    its stream on they exceed 2^53, so [RNG.hash] is computed with the
    rounding of a double.  A double has no integer above 2^53 that is not a
    multiple of a power of two and overflows to Infinity near 2^1024: the
    statements about the generator take seeds of at most 2^53 in absolute
    value, which a double holds exactly and which keep its products finite. *)

From Stdlib Require Import ZArith QArith Qround Qabs Qminmax.
From Stdlib Require Import List Permutation Bool String Ascii Lia Lqa.
From Stdlib Require Import DecimalString DecimalNat FinFun.
Import ListNotations.

Local Open Scope Q_scope.

(** ** JavaScript built-ins used by the program *)

Definition Math_round (x : Q) : Q := inject_Z (Qfloor (x + (1 # 2))).

Definition Math_max (a b : Q) : Q := Qmax a b.

Definition Math_abs (x : Q) : Q := Qabs x.

(** The double nearest to an integer: 53 significant bits are kept, the
    rest is rounded to nearest, ties to even.  Overflow is not modelled: the
    result is that of a double for magnitudes below 2^1024 only. *)
Definition round_to_double (z : Z) : Z :=
  let n := Z.abs z in
  let e := (Z.log2 n - 52)%Z in
  if (e <=? 0)%Z then z
  else
    let q := Z.shiftr n e in
    let r := Z.land n (Z.ones e) in
    let half := Z.shiftl 1 (e - 1) in
    let q' :=
      if (r <? half)%Z then q
      else if (half <? r)%Z then (q + 1)%Z
      else if Z.even q then q else (q + 1)%Z in
    (Z.sgn z * Z.shiftl q' e)%Z.

(** [x * y] and [x + y] on integer-valued numbers. *)
Definition number_mul (x y : Z) : Z := round_to_double (x * y).

Definition number_add (x y : Z) : Z := round_to_double (x + y).

(** [a <= b] and [a > b] on numbers, as booleans. *)
Definition Qleb (a b : Q) : bool := Qle_bool a b.

Definition Qgtb (a b : Q) : bool := negb (Qle_bool a b).

(** ** types.ts *)

Module Constants.
Definition TICK_RATE_MS : Q := 16.
Definition NOTE_FALL_TIME : Q := 1800.
Definition HIT_WINDOW : Q := 30.
Definition HIT_LINE_Y : Q := 350.
Definition SCORE_INCREMENT : Q := 1.
Definition SCORE_DECREMENT : Q := 1.
End Constants.

Definition COLORS : list string :=
  ["green"; "red"; "blue"; "yellow"]%string.

Inductive Key : Type := KeyH | KeyJ | KeyK | KeyL.

Definition KEY_BINDINGS (k : Key) : Z :=
  match k with
  | KeyH => 0
  | KeyJ => 1
  | KeyK => 2
  | KeyL => 3
  end%Z.

Definition NOTE_VELOCITY : Q :=
  Constants.HIT_LINE_Y / (Constants.NOTE_FALL_TIME / Constants.TICK_RATE_MS).

Record Note : Type := mkNote {
  id : string;
  user_played : bool;
  column : Z;
  y : Q;
  instrumentName : string;
  velocity : Q;
  pitch : Z;
  start : Q;
  end_ : Q;
  hit : bool
}.

Record State : Type := mkState {
  notes : list Note;
  score : Q;
  missedNotes : Z;
  gameEnd : bool;
  multiplier : Q;
  consecutiveHits : Z;
  shouldPlayRandomNote : bool
}.

Definition initialState : State :=
  {| notes := [];
     score := 0;
     missedNotes := 0;
     gameEnd := false;
     multiplier := 1;
     consecutiveHits := 0;
     shouldPlayRandomNote := false |}.

(** ** state.ts *)

Module PlayRandomNote.
Definition apply (s : State) : State :=
  {| notes := notes s;
     score := score s;
     missedNotes := missedNotes s;
     gameEnd := gameEnd s;
     multiplier := multiplier s;
     consecutiveHits := consecutiveHits s;
     shouldPlayRandomNote := shouldPlayRandomNote s |}.
End PlayRandomNote.

Module AddNotes.
Definition apply (note : Note) (s : State) : State :=
  if String.eqb (id note) "gameEndNote"
  then {| notes := notes s;
          score := score s;
          missedNotes := missedNotes s;
          gameEnd := true;
          multiplier := multiplier s;
          consecutiveHits := consecutiveHits s;
          shouldPlayRandomNote := shouldPlayRandomNote s |}
  else {| notes := notes s ++ [note];
          score := score s;
          missedNotes := missedNotes s;
          gameEnd := gameEnd s;
          multiplier := multiplier s;
          consecutiveHits := consecutiveHits s;
          shouldPlayRandomNote := shouldPlayRandomNote s |}.
End AddNotes.

Module KeyPress.
Definition isNoteHittable (key : Key) (note : Note) : bool :=
  Z.eqb (column note) (KEY_BINDINGS key)
  && Qleb (Math_abs (y note - Constants.HIT_LINE_Y)) Constants.HIT_WINDOW
  && negb (hit note).

Definition updateNote (key : Key) (note : Note) : Note :=
  if isNoteHittable key note
  then {| id := id note;
          user_played := user_played note;
          column := column note;
          y := Constants.HIT_LINE_Y + NOTE_VELOCITY;
          instrumentName := instrumentName note;
          velocity := velocity note;
          pitch := pitch note;
          start := start note;
          end_ := end_ note;
          hit := true |}
  else note.

Definition calculateScore (s : State) (notesHit : nat) : Q :=
  let baseScore :=
    if Nat.eqb notesHit 0
    then Math_max 0 (score s - Constants.SCORE_DECREMENT)
    else score s
         + inject_Z (Z.of_nat notesHit) * multiplier s
           * Constants.SCORE_INCREMENT in
  Math_round baseScore.

Definition calculateMultiplier (consecutiveHits : Z) (currentMultiplier : Q)
  : Q :=
  if Z.eqb (Z.rem consecutiveHits 10) 0
  then currentMultiplier + (2 # 10)
  else currentMultiplier.

Definition apply (key : Key) (s : State) : State :=
  let notesHit := List.length (filter (isNoteHittable key) (notes s)) in
  let updatedNotes := map (updateNote key) (notes s) in
  let newConsecutiveHits :=
    if Nat.ltb 0 notesHit then (consecutiveHits s + 1)%Z else 0%Z in
  {| notes := updatedNotes;
     score := calculateScore s notesHit;
     missedNotes := missedNotes s;
     gameEnd := gameEnd s;
     multiplier :=
       if Nat.ltb 0 notesHit
       then calculateMultiplier newConsecutiveHits (multiplier s)
       else 1;
     consecutiveHits := newConsecutiveHits;
     shouldPlayRandomNote := Nat.eqb notesHit 0 |}.
End KeyPress.

Module Tick.
Definition isMissedNote (note : Note) : bool :=
  Qgtb (y note) Constants.HIT_LINE_Y && negb (hit note).

Definition updateNotePosition (note : Note) : Note :=
  {| id := id note;
     user_played := user_played note;
     column := column note;
     y := y note + NOTE_VELOCITY;
     instrumentName := instrumentName note;
     velocity := velocity note;
     pitch := pitch note;
     start := start note;
     end_ := end_ note;
     hit := hit note |}.

Definition isNoteInPlayArea (note : Note) : bool :=
  Qleb (y note) (Constants.HIT_LINE_Y + NOTE_VELOCITY).

(** The [Pick<State, "consecutiveHits" | "multiplier" | "missedNotes">]
    object, as a triple in that order. *)
Definition updateGameStats (s : State) (missedCount : nat) : Z * Q * Z :=
  (if Nat.ltb 0 missedCount then 0%Z else consecutiveHits s,
   if Nat.ltb 0 missedCount then 1 else multiplier s,
   (missedNotes s + Z.of_nat missedCount)%Z).

Definition apply (s : State) : State :=
  let missedNotesCount := List.length (filter isMissedNote (notes s)) in
  let updatedNotes :=
    filter isNoteInPlayArea (map updateNotePosition (notes s)) in
  let '(newConsecutiveHits, newMultiplier, newMissedNotes) :=
    updateGameStats s missedNotesCount in
  {| notes := updatedNotes;
     score := score s;
     missedNotes := newMissedNotes;
     gameEnd := gameEnd s;
     multiplier := newMultiplier;
     consecutiveHits := newConsecutiveHits;
     shouldPlayRandomNote := false |}.
End Tick.

(** The four classes that implement the [Action] interface. *)
Inductive Action : Type :=
| NewTick
| NewAddNotes (note : Note)
| NewKeyPress (key : Key)
| NewPlayRandomNote.

Definition Action_apply (action : Action) (s : State) : State :=
  match action with
  | NewTick => Tick.apply s
  | NewAddNotes note => AddNotes.apply note s
  | NewKeyPress key => KeyPress.apply key s
  | NewPlayRandomNote => PlayRandomNote.apply s
  end.

Definition reduceState (s : State) (action : Action) : State :=
  Action_apply action s.

(** [scan(reduceState, initialState)] over a finite prefix of the action
    stream: the state after the last action. *)
Definition run (s : State) (actions : list Action) : State :=
  fold_left reduceState actions s.

(** The states the game can be in. *)
Inductive reachable : State -> Prop :=
| reachable_init : reachable initialState
| reachable_step s action :
    reachable s -> reachable (reduceState s action).

(** ** util.ts *)

Module RNG.
Definition m : Z := 0x80000000.
Definition a : Z := 1103515245.
Definition c : Z := 12345.

Definition hash (seed : Z) : Z :=
  Z.rem (number_add (number_mul a seed) c) m.

Definition scale (hash : Z) : Q :=
  (2 * inject_Z hash) / (inject_Z m - 1) - 1.
End RNG.

(** ** observable.ts: the chart stream

    A cold observable that emits finitely many values and completes is
    represented by what one subscription sees: the values with the time (in
    milliseconds after the subscription) at which each is emitted, in emission
    order, and the time of completion. *)

Record Observable (A : Type) : Type := mkObservable {
  events : list (Q * A);
  completion : Q
}.

Arguments mkObservable {A} _ _.
Arguments events {A} _.
Arguments completion {A} _.

Module Rx.
(** [of(x)] emits [x] and completes, synchronously. *)
Definition of_ {A : Type} (x : A) : Observable A :=
  {| events := [(0, x)]; completion := 0 |}.

(** [from(array)] emits the elements in order and completes,
    synchronously. *)
Definition from {A : Type} (l : list A) : Observable A :=
  {| events := List.map (fun x => (0, x)) l; completion := 0 |}.

Definition skip {A : Type} (n : nat) (o : Observable A) : Observable A :=
  {| events := skipn n (events o); completion := completion o |}.

Fixpoint mapi_from {A B : Type} (f : A -> nat -> B) (i : nat)
  (l : list (Q * A)) : list (Q * B) :=
  match l with
  | [] => []
  | (t, x) :: l' => (t, f x i) :: mapi_from f (S i) l'
  end.

(** [map(project)]: the projection receives the value and its index. *)
Definition map {A B : Type} (f : A -> nat -> B) (o : Observable A)
  : Observable B :=
  {| events := mapi_from f 0 (events o); completion := completion o |}.

(** The timer behind [delay]: a negative due time fires at once. *)
Definition due (d : Q) : Q := Qmax 0 d.

(** [delay(d)]: every value is emitted [d] later; the result completes
    when the source has completed and the last value is out. *)
Definition delay {A : Type} (d : Q) (o : Observable A) : Observable A :=
  let shifted := List.map (fun e => (fst e + due d, snd e)) (events o) in
  {| events := shifted;
     completion :=
       fold_left (fun acc e => Qmax acc (fst e)) shifted (completion o) |}.

(** A value emitted at time [t] goes after the values already due at
    [t] or earlier.  The order is that of the exact due times; the order in
    which the host's timers fire values due within the same millisecond is
    not modelled, and no statement below depends on it. *)
Fixpoint insert_event {A : Type} (e : Q * A) (l : list (Q * A))
  : list (Q * A) :=
  match l with
  | [] => [e]
  | e' :: l' =>
      if Qle_bool (fst e') (fst e)
      then e' :: insert_event e l'
      else e :: e' :: l'
  end.

(** An observable subscribed at time [t]. *)
Definition shift {A : Type} (t : Q) (o : Observable A) : Observable A :=
  {| events := List.map (fun e => (t + fst e, snd e)) (events o);
     completion := t + completion o |}.

(** Two observables running side by side. *)
Definition merge2 {A : Type} (o1 o2 : Observable A) : Observable A :=
  {| events := fold_left (fun acc e => insert_event e acc)
                         (events o2) (events o1);
     completion := Qmax (completion o1) (completion o2) |}.

(** [mergeMap(project)]: each source value starts an inner observable at
    the time it is emitted; the inner emissions are merged. *)
Definition mergeMap {A B : Type} (f : A -> Observable B) (o : Observable A)
  : Observable B :=
  fold_left (fun acc e => merge2 acc (shift (fst e) (f (snd e))))
            (events o)
            {| events := []; completion := completion o |}.

(** [concat(o1, o2)]: [o2] is subscribed when [o1] completes. *)
Definition concat {A : Type} (o1 o2 : Observable A) : Observable A :=
  let o2' := shift (completion o1) o2 in
  {| events := events o1 ++ events o2'; completion := completion o2' |}.

(** [filter(predicate)]. *)
Definition filter {A : Type} (f : A -> bool) (o : Observable A)
  : Observable A :=
  {| events := List.filter (fun e => f (snd e)) (events o);
     completion := completion o |}.

Fixpoint scan_from {A B : Type} (f : B -> A -> B) (acc : B)
  (l : list (Q * A)) : list (Q * B) :=
  match l with
  | [] => []
  | (t, x) :: l' => (t, f acc x) :: scan_from f (f acc x) l'
  end.

(** [scan(accumulator, seed)]: every source value gives the next
    accumulated value. *)
Definition scan {A B : Type} (f : B -> A -> B) (seed : B) (o : Observable A)
  : Observable B :=
  {| events := scan_from f seed (events o); completion := completion o |}.
End Rx.

(** [s.split(sep)] for a one-character separator. *)
Fixpoint split_on (sep : ascii) (s : string) : list string :=
  match s with
  | EmptyString => [EmptyString]
  | String ch s' =>
      if Ascii.eqb ch sep
      then EmptyString :: split_on sep s'
      else match split_on sep s' with
           | [] => [String ch EmptyString]
           | w :: ws => String ch w :: ws
           end
  end.

Definition lower_ascii (ch : ascii) : ascii :=
  let n := nat_of_ascii ch in
  if (Nat.leb 65 n && Nat.leb n 90)%bool then ascii_of_nat (n + 32) else ch.

(** [s.toLowerCase()], on the ASCII letters. *)
Fixpoint toLowerCase (s : string) : string :=
  match s with
  | EmptyString => EmptyString
  | String ch s' => String (lower_ascii ch) (toLowerCase s')
  end.

(** The template literal [`${index}`]: the index in decimal. *)
Definition index_to_string (index : nat) : string :=
  NilEmpty.string_of_uint (Nat.to_uint index).

(** The object literal of [createGameEndNote$]. *)
Definition gameEndNote : Note :=
  {| id := "gameEndNote";
     user_played := true;
     column := 0;
     y := 0;
     instrumentName := "";
     velocity := 0;
     pitch := 0;
     start := 0;
     end_ := 0;
     hit := false |}.

Section Chart.
(** [parseInt] and [parseFloat] are the host's; a field they cannot read
    (their result is NaN) is outside this model.  A field that a short row
    lacks ([undefined]) is the empty string here. *)
Variable parseInt : string -> Z.
Variable parseFloat : string -> Q.

Definition csvLineToNote (line : string) (index : nat) : Note :=
  let fields := split_on "," line in
  let userPlayed := nth 0 fields EmptyString in
  let instrument := nth 1 fields EmptyString in
  let velocity_ := nth 2 fields EmptyString in
  let pitch_ := nth 3 fields EmptyString in
  let start_ := nth 4 fields EmptyString in
  let end__ := nth 5 fields EmptyString in
  {| id := index_to_string index;
     user_played := String.eqb (toLowerCase userPlayed) "true";
     column := Z.rem (parseInt pitch_) (Z.of_nat (List.length COLORS));
     y := 0;
     instrumentName := instrument;
     velocity := inject_Z (parseInt velocity_) / 127;
     pitch := parseInt pitch_;
     start := parseFloat start_;
     end_ := parseFloat end__;
     hit := false |}.

Definition calculateNoteDelay (note : Note) : Q :=
  (start note - Constants.NOTE_FALL_TIME / 1000) * 1000.

Definition createGameEndNote : Observable Note :=
  Rx.delay (Constants.NOTE_FALL_TIME + 2000) (Rx.of_ gameEndNote).

(** The data rows of the chart, as notes, in chart order. *)
Definition chartNotes (csvContents : string) : Observable Note :=
  Rx.map csvLineToNote (Rx.skip 1 (Rx.from (split_on "010" csvContents))).

(** [notes$] of [parseCSV]: each chart note, emitted after its delay. *)
Definition scheduledNotes (csvContents : string) : Observable Note :=
  Rx.mergeMap
    (fun note => Rx.delay (calculateNoteDelay note) (Rx.of_ note))
    (chartNotes csvContents).

Definition parseCSV (csvContents : string) : Observable Note :=
  let notes_ := scheduledNotes csvContents in
  Rx.concat notes_ createGameEndNote.
End Chart.

(** ** Quantities the statements talk about *)

(** [notesHit] of [KeyPress.apply]: how many notes the press hits. *)
Definition notesHit (key : Key) (s : State) : nat :=
  List.length (filter (KeyPress.isNoteHittable key) (notes s)).

(** [missedNotesCount] of [Tick.apply]: how many notes the tick counts as
    missed. *)
Definition missedCount (s : State) : nat :=
  List.length (filter Tick.isMissedNote (notes s)).

(** An action misses in [s] when it is a key press that hits nothing or a
    tick that counts a missed note. *)
Definition misses (s : State) (action : Action) : bool :=
  match action with
  | NewKeyPress key => Nat.eqb (notesHit key s) 0
  | NewTick => Nat.ltb 0 (missedCount s)
  | NewAddNotes _ | NewPlayRandomNote => false
  end.

(** No action of the sequence misses in the state it is applied to. *)
Fixpoint no_miss (s : State) (actions : list Action) : bool :=
  match actions with
  | [] => true
  | action :: rest =>
      negb (misses s action) && no_miss (reduceState s action) rest
  end.

Definition is_KeyPress (action : Action) : bool :=
  match action with
  | NewKeyPress _ => true
  | _ => false
  end.

(** The number of key presses in a sequence of actions. *)
Definition presses (actions : list Action) : nat :=
  List.length (filter is_KeyPress actions).

Definition is_AddNotes (action : Action) : bool :=
  match action with
  | NewAddNotes _ => true
  | _ => false
  end.

(** The number of AddNotes actions in a sequence of actions. *)
Definition adds (actions : list Action) : nat :=
  List.length (filter is_AddNotes actions).

(** The number of notes of a list that are not hit. *)
Definition unhit (l : list Note) : nat :=
  List.length (filter (fun n => negb (hit n)) l).

(** [n'] is [n] some time later: the same note but for its position and its
    hit flag. *)
Definition same_note (n n' : Note) : Prop :=
  id n' = id n /\ user_played n' = user_played n /\ column n' = column n /\
  instrumentName n' = instrumentName n /\ velocity n' = velocity n /\
  pitch n' = pitch n /\ start n' = start n /\ end_ n' = end_ n.

(** The notes an action brings into the state. *)
Definition fresh_of (action : Action) : list Note :=
  match action with
  | NewAddNotes note =>
      if String.eqb (id note) "gameEndNote" then [] else [note]
  | _ => []
  end.

(** [descends fresh l l']: the list [l'] is the list [l] after one action.
    Going through [l] in order, each note is either gone or still there as
    the same note, and then hit if it was hit; the notes [fresh] come after
    them. *)
Inductive descends (fresh : list Note) : list Note -> list Note -> Prop :=
| descends_end : descends fresh [] fresh
| descends_gone n l l' :
    descends fresh l l' -> descends fresh (n :: l) l'
| descends_kept n n' l l' :
    same_note n n' -> (hit n = true -> hit n' = true) ->
    descends fresh l l' -> descends fresh (n :: l) (n' :: l').

Definition is_digit (ch : ascii) : bool :=
  let n := nat_of_ascii ch in (Nat.leb 48 n && Nat.leb n 57)%bool.

Fixpoint all_digits (s : string) : bool :=
  match s with
  | EmptyString => true
  | String ch s' => is_digit ch && all_digits s'
  end.

(** Every emission is at or before the completion. *)
Definition bounded {A : Type} (o : Observable A) : Prop :=
  Forall (fun e => fst e <= completion o) (events o).

(** What every reachable state satisfies: the score is a non-negative
    integer and the multiplier is at least 1. *)
Definition score_inv (s : State) : Prop :=
  (exists z : Z, (0 <= z)%Z /\ score s = inject_Z z) /\ 1 <= multiplier s.

(** ** Sample inputs *)

(** A user note of lane [col] at height [pos]. *)
Definition sample_note (ident : string) (col : Z) (pos : Q) (h : bool)
  : Note :=
  {| id := ident; user_played := true; column := col; y := pos;
     instrumentName := "piano"; velocity := 1; pitch := col;
     start := 2; end_ := 3; hit := h |}.

(** A state in mid-game: one note past the hit line, one on it, a combo of
    seven and a raised multiplier. *)
Definition sample_state : State :=
  {| notes := [sample_note "0" 0 351 false; sample_note "1" 1 350 false];
     score := 12;
     missedNotes := 3;
     gameEnd := false;
     multiplier := 12 # 10;
     consecutiveHits := 7;
     shouldPlayRandomNote := false |}.

(** Ten times: a note arrives on the hit line in lane 0 and [KeyH] is
    pressed, with a tick that misses nothing in between. *)
Definition ten_hits : list Action :=
  List.concat (repeat [NewAddNotes (sample_note "7" 0 350 false);
                  NewKeyPress KeyH; NewTick] 10).

(** A chart of two rows, the second one due first. *)
Definition two_rows : string :=
  ("user_played,instrument_name,velocity,pitch,start (s),end (s)"
   ++ String "010" "True,piano,80,62,5,6"
   ++ String "010" "False,violin,64,57,1,2")%string.

Definition sample_parseInt (field : string) : Z :=
  match field with
  | "80" => 80 | "62" => 62 | "64" => 64 | "57" => 57 | _ => 0
  end%string%Z.

Definition sample_parseFloat (field : string) : Q :=
  match field with
  | "5" => 5 | "6" => 6 | "1" => 1 | "2" => 2 | _ => 0
  end%string.

(** ** More quantities *)

(** A sequence of AddNotes actions, one for each note. *)
Definition add_all (l : list Note) : list Action := map NewAddNotes l.

Definition is_sentinel (n : Note) : bool := String.eqb (id n) "gameEndNote".

(** The combo steps of the multiplier: one for every ten hits in a row. *)
Definition combo_steps (s : State) : Z := (consecutiveHits s / 10)%Z.

(** The multiplier after [k] raises: 1 with 0.2 added [k] times, one
    addition after the other as [calculateMultiplier] makes them. *)
Definition raised (k : nat) : Q := Nat.iter k (fun m => m + (2 # 10)) 1.

(** [k] ticks in a row. *)
Definition ticks (k : nat) : list Action := repeat NewTick k.

(** A note moved by [k] ticks. *)
Definition moved (k : nat) (n : Note) : Note :=
  Nat.iter k Tick.updateNotePosition n.

(** The notes of a state after one tick. *)
Definition tick_notes (l : list Note) : list Note :=
  filter Tick.isNoteInPlayArea (map Tick.updateNotePosition l).

(** An action as the game makes them: a note that is added starts at the
    top and is not hit (as [csvLineToNote] and [createGameEndNote$] build
    them). *)
Definition born_fresh (action : Action) : bool :=
  match action with
  | NewAddNotes note => Qeq_bool (y note) 0 && negb (hit note)
  | _ => true
  end.

(** Where a note of such a game can be: between the top and one step past
    the hit line, and exactly one step past it when it is hit. *)
Definition note_ok (n : Note) : Prop :=
  0 <= y n /\ y n <= Constants.HIT_LINE_Y + NOTE_VELOCITY /\
  (hit n = true -> y n = Constants.HIT_LINE_Y + NOTE_VELOCITY).

(** ** main.ts: the sound of hit notes

    [playHitNote] calls [triggerAttackRelease] on the sampler of the note's
    instrument; here it returns the calls it makes, in order.  The note name
    is made by [Tone.Frequency] from the pitch, which is kept as it is. *)

Record Sound : Type := mkSound {
  sampler : string;
  midi : Z;
  duration : Q;
  loudness : Q
}.

Definition sound_of (note : Note) : Sound :=
  {| sampler := instrumentName note;
     midi := pitch note;
     duration := end_ note - start note;
     loudness := velocity note * (8 # 10) |}.

Definition playHitNote (s : State) : list Sound :=
  map sound_of (filter hit (notes s)).

(** ** main.ts: the two streams of notes *)

(** [userPlayableNotes$]: the notes the player has to hit, as actions. *)
Definition userPlayableNotes (notes_ : Observable Note) : Observable Action :=
  Rx.map (fun note _ => NewAddNotes note)
         (Rx.filter (fun n => user_played n) notes_).


(** ** observable.ts: the random streams *)

Definition Math_floor (x : Q) : Q := inject_Z (Qfloor x).

(** [createRngStreamFromSource(source$)(seed)]. *)
Definition createRngStreamFromSource {T : Type} (source : Observable T)
  (seed : Z) : Observable Q :=
  let randomNumberStream :=
    Rx.map (fun hashedSeed _ => RNG.scale hashedSeed)
           (Rx.scan (fun acc _ => RNG.hash acc) seed source) in
  randomNumberStream.

Definition createRandomPitchStream {T : Type} (source : Observable T)
  : Observable Q :=
  let rngStream := createRngStreamFromSource source in
  Rx.map
    (fun randomVal _ =>
       let minPitch := 20 in
       let maxPitch := 110 in
       Math_floor (minPitch + ((randomVal + 1) / 2) * (maxPitch - minPitch)))
    (rngStream 0%Z).

Definition createRandomDurationStream {T : Type} (source : Observable T)
  : Observable Q :=
  let rngStream := createRngStreamFromSource source in
  Rx.map (fun randomValue _ => (randomValue + 1) / 4) (rngStream 0%Z).

(** The hashes behind a random stream: the seed hashed once for the first
    source value, twice for the second, and so on. *)
Definition hashes {T : Type} (source : Observable T) (seed : Z)
  : list (Q * Z) :=
  Rx.scan_from (fun acc (_ : T) => RNG.hash acc) seed (events source).

(** The ids of the notes that a sequence of actions brings into the
    state. *)
Definition added_ids (actions : list Action) : list string :=
  map id (flat_map fresh_of actions).

(** ** view.ts: the notes on the canvas

    The canvas is the list of its note circles, in document order.  The
    other elements of the document (the canvas itself, the game-over sign,
    the text displays and whatever else index.html declares, which is not
    among the sources) are known by their ids only, the list [others].  Of
    [render] the part that manages the note elements is modelled,
    [s.notes.forEach(manageNoteElement)]; the four text displays are not.
    When [getElementById] finds an element that is not a note circle, what
    the code then does to it is outside this model: the result is [None]. *)

Module Viewport.
Definition CANVAS_WIDTH : Q := 200.
Definition CANVAS_HEIGHT : Q := 400.
End Viewport.

(** The double nearest to a positive rational (53 significant bits, ties to
    even); used where the text of a number is an attribute. *)
Definition double_of (q : Q) : Q :=
  let e0 := (Z.log2 (Qnum q) - Z.log2 (Zpos (Qden q)))%Z in
  let e := if Qle_bool (2 ^ e0) q then e0 else (e0 - 1)%Z in
  let scaled := q * 2 ^ (52 - e) in
  let fl := Qfloor scaled in
  let m :=
    match (scaled - inject_Z fl) ?= (1 # 2) with
    | Lt => fl
    | Gt => (fl + 1)%Z
    | Eq => if Z.even fl then fl else (fl + 1)%Z
    end in
  inject_Z m * 2 ^ (e - 52).

(** [Note.RADIUS] of types.ts, [0.07 * Viewport.CANVAS_WIDTH] as the double
    that the template literal prints (14.000000000000002). *)
Definition Note_RADIUS : Q :=
  double_of (double_of (7 # 100) * Viewport.CANVAS_WIDTH).

(** A circle element with the attributes [createNoteSvgElement] sets; [cx]
    is in percent. *)
Record Circle : Type := mkCircle {
  circle_id : string;
  circle_r : Q;
  circle_cx : Z;
  circle_cy : Q;
  circle_fill : string;
  circle_class : string
}.

(** What [document.getElementById] finds. *)
Inductive Element : Type :=
| NoteCircle (c : Circle)
| OtherElement (i : string).

(** [COLORS[column]]; outside the array it is [undefined]. *)
Definition COLORS_at (column : Z) : string :=
  if (column <? 0)%Z then "undefined"%string
  else nth (Z.to_nat column) COLORS "undefined"%string.

Definition createNoteSvgElement (note : Note) : Circle :=
  {| circle_id := id note;
     circle_r := Note_RADIUS;
     circle_cx := (column note * 20 + 20)%Z;
     circle_cy := y note;
     circle_fill := COLORS_at (column note);
     circle_class := "note shadow" |}.

(** The id is the id of an element that is not a note circle. *)
Definition foreign (others : list string) (i : string) : bool :=
  existsb (String.eqb i) others.

(** [document.getElementById(id)]: an element of the document with that id,
    a note circle of the canvas (the first one) or another element; the
    empty string finds nothing. *)
Definition getElementById (others : list string) (i : string)
  (svg : list Circle) : option Element :=
  if String.eqb i "" then None
  else if foreign others i then Some (OtherElement i)
  else option_map NoteCircle (find (fun e => String.eqb (circle_id e) i) svg).

(** An id that only a note circle can be found by: not empty and not the id
    of another element. *)
Definition plain (others : list string) (i : string) : bool :=
  negb (String.eqb i "") && negb (foreign others i).

(** [svg.removeChild(elem)] for the circle that [getElementById i] finds. *)
Fixpoint removeChild (i : string) (svg : list Circle) : list Circle :=
  match svg with
  | [] => []
  | e :: svg' =>
      if String.eqb (circle_id e) i then svg' else e :: removeChild i svg'
  end.

(** [elem.setAttribute("cy", v)] for the circle that [getElementById i]
    finds. *)
Fixpoint setAttribute_cy (i : string) (v : Q) (svg : list Circle)
  : list Circle :=
  match svg with
  | [] => []
  | e :: svg' =>
      if String.eqb (circle_id e) i
      then {| circle_id := circle_id e;
              circle_r := circle_r e;
              circle_cx := circle_cx e;
              circle_cy := v;
              circle_fill := circle_fill e;
              circle_class := circle_class e |} :: svg'
      else e :: setAttribute_cy i v svg'
  end.

Definition manageNoteElement (others : list string) (note : Note)
  (svg : list Circle) : option (list Circle) :=
  let elem := getElementById others (id note) svg in
  if Qgtb (y note) Constants.HIT_LINE_Y
  then match elem with
       | Some (NoteCircle _) => Some (removeChild (id note) svg)
       | Some (OtherElement _) => None
       | None => Some svg
       end
  else match elem with
       | Some (NoteCircle _) => Some (setAttribute_cy (id note) (y note) svg)
       | Some (OtherElement _) => None
       | None => Some (svg ++ [createNoteSvgElement note])
       end.

(** [notes.forEach(manageNoteElement)] from a canvas [svg]. *)
Definition manageAll (others : list string) (l : list Note)
  (svg : option (list Circle)) : option (list Circle) :=
  fold_left
    (fun acc note =>
       match acc with
       | Some svg => manageNoteElement others note svg
       | None => None
       end)
    l svg.

Definition renderNotes (others : list string) (s : State)
  (svg : list Circle) : option (list Circle) :=
  manageAll others (notes s) (Some svg).

(** The state stream with its subscription: after each action the new state
    is rendered on the canvas the last one left. *)
Fixpoint play (others : list string) (s : State) (svg : list Circle)
  (actions : list Action) : option (State * list Circle) :=
  match actions with
  | [] => Some (s, svg)
  | action :: rest =>
      let s' := reduceState s action in
      match renderNotes others s' svg with
      | Some svg' => play others s' svg' rest
      | None => None
      end
  end.

(** The circles of the notes that are not past the hit line. *)
Definition shown (l : list Note) : list Circle :=
  map createNoteSvgElement
      (filter (fun n => Qleb (y n) Constants.HIT_LINE_Y) l).

(** The ids in the document besides the note circles that the sources
    name. *)
Definition named_ids : list string :=
  ["svgCanvas"; "gameOver"; "scoreText"; "missedText"; "multiplierText";
   "comboText"]%string.

(** The combo invariant: the counter is not negative and the multiplier is
    1 raised once for every ten hits of the combo. *)
Definition combo_inv (s : State) : Prop :=
  (0 <= consecutiveHits s)%Z /\
  multiplier s = raised (Z.to_nat (combo_steps s)).

(** * Properties *)

(** ** Numbers *)

Lemma Qleb_true (a b : Q) : Qleb a b = true <-> a <= b.
Proof. apply Qle_bool_iff. Qed.

Lemma Qgtb_true (a b : Q) : Qgtb a b = true <-> b < a.
Proof.
  unfold Qgtb. rewrite negb_true_iff. split; intro H.
  - apply Qnot_le_lt. intro Hle. apply Qle_bool_iff in Hle. congruence.
  - destruct (Qle_bool a b) eqn:E; [|reflexivity].
    apply Qle_bool_iff in E. exfalso. apply (Qlt_not_le _ _ H E).
Qed.

Lemma Math_round_inject_Z (z : Z) : Math_round (inject_Z z) == inject_Z z.
Proof.
  unfold Math_round.
  assert (H : Qfloor (inject_Z z + (1 # 2)) = z).
  { unfold Qfloor, Qplus, inject_Z. cbn.
    symmetry. apply (Z.div_unique_pos _ 2 z 1); lia. }
  rewrite H. reflexivity.
Qed.

Lemma Qplus_nonneg (a b : Q) : 0 <= a -> 0 <= b -> 0 <= a + b.
Proof. intros. lra. Qed.

Lemma inject_Z_nonneg (z : Z) : (0 <= z)%Z -> 0 <= inject_Z z.
Proof. intro H. change 0 with (inject_Z 0). rewrite <- Zle_Qle. exact H. Qed.

Lemma Math_max_inject_Z (z : Z) :
  Math_max 0 (inject_Z z - 1) == inject_Z (Z.max 0 (z - 1)).
Proof.
  unfold Math_max.
  assert (E : inject_Z z - 1 == inject_Z (z - 1)).
  { unfold Zminus. rewrite inject_Z_plus. reflexivity. }
  destruct (Z.max_spec 0 (z - 1)) as [[Hlt ->] | [Hle ->]].
  - rewrite Q.max_r; [exact E|]. rewrite E.
    change 0 with (inject_Z 0). rewrite <- Zle_Qle. lia.
  - rewrite Q.max_l; [reflexivity|]. rewrite E.
    change 0 with (inject_Z 0). rewrite <- Zle_Qle. lia.
Qed.

(** ** The reducer *)

Lemma filter_length_0 {A : Type} (f : A -> bool) (l : list A) :
  (forall x, In x l -> f x = false) -> List.length (filter f l) = 0%nat.
Proof.
  induction l as [|x l IH]; intro H; simpl; [reflexivity|].
  rewrite (H x (or_introl eq_refl)). apply IH.
  intros x' Hx'. apply H. right. exact Hx'.
Qed.

Lemma isNoteHittable_spec (key : Key) (n : Note) :
  KeyPress.isNoteHittable key n = true <->
  column n = KEY_BINDINGS key /\
  Qabs (y n - Constants.HIT_LINE_Y) <= Constants.HIT_WINDOW /\
  hit n = false.
Proof.
  unfold KeyPress.isNoteHittable, Math_abs.
  rewrite !andb_true_iff, Z.eqb_eq, Qleb_true, negb_true_iff. tauto.
Qed.

Lemma isMissedNote_spec (n : Note) :
  Tick.isMissedNote n = true <->
  Constants.HIT_LINE_Y < y n /\ hit n = false.
Proof.
  unfold Tick.isMissedNote.
  rewrite andb_true_iff, Qgtb_true, negb_true_iff. tauto.
Qed.

Lemma reachable_run (actions : list Action) (s : State) :
  reachable s -> reachable (run s actions).
Proof.
  revert s. induction actions as [|a actions IH]; intros s Hs; simpl.
  - exact Hs.
  - apply IH. constructor. exact Hs.
Qed.

(** The fields of the state after a key press and after a tick. *)

Lemma KeyPress_score (key : Key) (s : State) :
  score (KeyPress.apply key s) = KeyPress.calculateScore s (notesHit key s).
Proof. reflexivity. Qed.

Lemma KeyPress_multiplier (key : Key) (s : State) :
  multiplier (KeyPress.apply key s) =
  if Nat.ltb 0 (notesHit key s)
  then KeyPress.calculateMultiplier (consecutiveHits s + 1) (multiplier s)
  else 1.
Proof.
  unfold KeyPress.apply, notesHit. simpl.
  destruct (Nat.ltb _ _); reflexivity.
Qed.

Lemma KeyPress_consecutiveHits (key : Key) (s : State) :
  consecutiveHits (KeyPress.apply key s) =
  if Nat.ltb 0 (notesHit key s) then (consecutiveHits s + 1)%Z else 0%Z.
Proof. reflexivity. Qed.

Lemma KeyPress_notes (key : Key) (s : State) :
  notes (KeyPress.apply key s) = map (KeyPress.updateNote key) (notes s).
Proof. reflexivity. Qed.

Lemma Tick_multiplier (s : State) :
  multiplier (Tick.apply s) =
  if Nat.ltb 0 (missedCount s) then 1 else multiplier s.
Proof. reflexivity. Qed.

Lemma Tick_consecutiveHits (s : State) :
  consecutiveHits (Tick.apply s) =
  if Nat.ltb 0 (missedCount s) then 0%Z else consecutiveHits s.
Proof. reflexivity. Qed.

Lemma Tick_missedNotes (s : State) :
  missedNotes (Tick.apply s) = (missedNotes s + Z.of_nat (missedCount s))%Z.
Proof. reflexivity. Qed.

Lemma Tick_notes (s : State) :
  notes (Tick.apply s) =
  filter Tick.isNoteInPlayArea (map Tick.updateNotePosition (notes s)).
Proof. reflexivity. Qed.

Lemma AddNotes_cases (note : Note) (s : State) :
  (id note = "gameEndNote"%string /\
   AddNotes.apply note s =
   {| notes := notes s; score := score s; missedNotes := missedNotes s;
      gameEnd := true; multiplier := multiplier s;
      consecutiveHits := consecutiveHits s;
      shouldPlayRandomNote := shouldPlayRandomNote s |}) \/
  (id note <> "gameEndNote"%string /\
   AddNotes.apply note s =
   {| notes := notes s ++ [note]; score := score s;
      missedNotes := missedNotes s; gameEnd := gameEnd s;
      multiplier := multiplier s; consecutiveHits := consecutiveHits s;
      shouldPlayRandomNote := shouldPlayRandomNote s |}).
Proof.
  unfold AddNotes.apply.
  destruct (String.eqb_spec (id note) "gameEndNote"); [left | right]; auto.
Qed.

Lemma calculateScore_integer (s : State) (n : nat) :
  0 <= score s -> 0 <= multiplier s ->
  exists z : Z, (0 <= z)%Z /\ KeyPress.calculateScore s n = inject_Z z.
Proof.
  intros Hs Hm. unfold KeyPress.calculateScore, Math_round.
  match goal with |- context [Qfloor ?e] => set (x := e) end.
  exists (Qfloor x). split; [|reflexivity].
  change 0%Z with (Qfloor 0). apply Qfloor_resp_le.
  unfold x. apply Qplus_nonneg; [|discriminate].
  destruct (Nat.eqb n 0).
  - apply Q.le_max_l.
  - unfold Constants.SCORE_INCREMENT. rewrite Qmult_1_r.
    apply Qplus_nonneg; [exact Hs|].
    apply Qmult_le_0_compat; [|exact Hm].
    apply inject_Z_nonneg. lia.
Qed.

Lemma score_inv_step (s : State) (action : Action) :
  score_inv s -> score_inv (reduceState s action).
Proof.
  intros [[z [Hz Hs]] Hm]. destruct action as [|note|key|]; simpl.
  - split.
    + exists z. auto.
    + rewrite Tick_multiplier.
      destruct (Nat.ltb 0 _); [apply Qle_refl | exact Hm].
  - destruct (AddNotes_cases note s) as [[_ ->] | [_ ->]];
      (split; [exists z; auto | exact Hm]).
  - split.
    + rewrite KeyPress_score. apply calculateScore_integer.
      * rewrite Hs. apply inject_Z_nonneg. exact Hz.
      * lra.
    + rewrite KeyPress_multiplier. destruct (Nat.ltb 0 _); [|apply Qle_refl].
      unfold KeyPress.calculateMultiplier.
      destruct (Z.eqb _ 0); [|exact Hm]. lra.
  - split; [exists z; auto | exact Hm].
Qed.

Lemma score_inv_reachable (s : State) : reachable s -> score_inv s.
Proof.
  induction 1 as [|s action _ IH].
  - split; [exists 0%Z; split; [lia | reflexivity] | apply Qle_refl].
  - apply score_inv_step. exact IH.
Qed.

(** ** Tick: missed notes and the reset (C1) *)

(** C1.  A tick adds to [missedNotes] the number of notes that are beyond the
    hit line and not hit, and when that number is positive the multiplier is
    1 and [consecutiveHits] is 0 afterwards, whatever they were. *)
Theorem tick_counts_missed_and_resets (s : State) :
  (forall n, Tick.isMissedNote n = true <->
             Constants.HIT_LINE_Y < y n /\ hit n = false) /\
  missedNotes (Tick.apply s) =
    (missedNotes s
     + Z.of_nat (List.length (filter Tick.isMissedNote (notes s))))%Z /\
  ((0 < List.length (filter Tick.isMissedNote (notes s)))%nat ->
   multiplier (Tick.apply s) = 1 /\ consecutiveHits (Tick.apply s) = 0%Z).
Proof.
  split; [exact isMissedNote_spec|]. split; [apply Tick_missedNotes|].
  intro Hpos. rewrite Tick_multiplier, Tick_consecutiveHits.
  apply Nat.ltb_lt in Hpos. unfold missedCount. rewrite Hpos. auto.
Qed.

Lemma tick_counts_missed_and_resets_witness :
  missedNotes (Tick.apply sample_state) = 4%Z /\
  multiplier (Tick.apply sample_state) = 1 /\
  consecutiveHits (Tick.apply sample_state) = 0%Z.
Proof.
  destruct (tick_counts_missed_and_resets sample_state) as [_ [Hm Hreset]].
  split; [rewrite Hm; reflexivity|].
  apply Hreset. vm_compute. reflexivity.
Defined.

(** ** Key press with nothing to hit (C2) *)

(** C2.  In a reachable state, a key press for which no note is in the key's
    lane, within the hit window and not hit gives
    [score = max(0, score - SCORE_DECREMENT)], [consecutiveHits = 0],
    [multiplier = 1] and [shouldPlayRandomNote = true]. *)
Theorem keypress_without_hit (key : Key) (s : State) :
  reachable s ->
  (forall n, In n (notes s) ->
     ~ (column n = KEY_BINDINGS key /\
        Qabs (y n - Constants.HIT_LINE_Y) <= Constants.HIT_WINDOW /\
        hit n = false)) ->
  score (KeyPress.apply key s)
    == Qmax 0 (score s - Constants.SCORE_DECREMENT) /\
  consecutiveHits (KeyPress.apply key s) = 0%Z /\
  multiplier (KeyPress.apply key s) = 1 /\
  shouldPlayRandomNote (KeyPress.apply key s) = true.
Proof.
  intros Hr Hnone.
  assert (H0 : notesHit key s = 0%nat).
  { apply filter_length_0. intros n Hn.
    destruct (KeyPress.isNoteHittable key n) eqn:E; [|reflexivity].
    exfalso. apply (Hnone n Hn). apply isNoteHittable_spec. exact E. }
  destruct (score_inv_reachable s Hr) as [[z [Hz Hs]] _].
  split; [|split; [|split]].
  - rewrite KeyPress_score, H0. unfold KeyPress.calculateScore. simpl.
    rewrite Hs. unfold Constants.SCORE_DECREMENT.
    fold (Math_max 0 (inject_Z z - 1)).
    assert (E := Math_max_inject_Z z).
    unfold Math_round.
    rewrite (Qfloor_comp _ _ (Qplus_comp _ _ E _ _ (Qeq_refl _))).
    fold (Math_round (inject_Z (Z.max 0 (z - 1)))).
    rewrite Math_round_inject_Z. symmetry. exact E.
  - rewrite KeyPress_consecutiveHits, H0. reflexivity.
  - rewrite KeyPress_multiplier, H0. reflexivity.
  - unfold KeyPress.apply. fold (notesHit key s). rewrite H0. reflexivity.
Qed.

Lemma keypress_without_hit_witness :
  let s := run initialState
             [NewAddNotes (sample_note "0" 0 350 false); NewKeyPress KeyH;
              NewAddNotes (sample_note "1" 1 0 false)] in
  score s == 1 /\
  score (KeyPress.apply KeyJ s) == 0 /\
  consecutiveHits (KeyPress.apply KeyJ s) = 0%Z /\
  multiplier (KeyPress.apply KeyJ s) = 1 /\
  shouldPlayRandomNote (KeyPress.apply KeyJ s) = true.
Proof.
  intro s. split; [reflexivity|].
  assert (Hr : reachable s) by (apply reachable_run; constructor).
  assert (Hnone : forall n, In n (notes s) ->
     ~ (column n = KEY_BINDINGS KeyJ /\
        Qabs (y n - Constants.HIT_LINE_Y) <= Constants.HIT_WINDOW /\
        hit n = false)).
  { intros n [<- | [<- | []]] [Hc [Hy Hh]]; vm_compute in Hc, Hy, Hh.
    - discriminate Hc.
    - apply Hy. reflexivity. }
  destruct (keypress_without_hit KeyJ s Hr Hnone) as [Hs Hrest].
  split; [|exact Hrest].
  rewrite Hs. reflexivity.
Defined.

(** ** The score never goes below zero (C4) *)

(** C4.  After any sequence of Tick, AddNotes, KeyPress and PlayRandomNote
    actions from the initial state, the score is at least 0. *)
Theorem score_never_negative (actions : list Action) :
  0 <= score (run initialState actions).
Proof.
  destruct (score_inv_reachable (run initialState actions))
    as [[z [Hz ->]] _].
  - apply reachable_run. constructor.
  - apply inject_Z_nonneg. exact Hz.
Qed.

(** ** The end of the game is final (C9) *)

(** C9.  When [gameEnd] is true, it is still true after any action, and so
    after any sequence of actions. *)
Theorem gameEnd_is_final (s : State) :
  gameEnd s = true ->
  (forall action, gameEnd (reduceState s action) = true) /\
  (forall actions, gameEnd (run s actions) = true).
Proof.
  assert (Hstep : forall s' action,
            gameEnd s' = true -> gameEnd (reduceState s' action) = true).
  { intros s' [|note|key|] H; simpl; try exact H.
    destruct (AddNotes_cases note s') as [[_ ->] | [_ ->]];
      [reflexivity | exact H]. }
  intro H. split; [intro action; apply Hstep; exact H|].
  intro actions. revert s H.
  induction actions as [|a actions IH]; intros s H; simpl; [exact H|].
  apply IH. apply Hstep. exact H.
Qed.

Lemma gameEnd_is_final_witness :
  let s := AddNotes.apply gameEndNote sample_state in
  gameEnd (reduceState s (NewAddNotes (sample_note "2" 2 0 false))) = true /\
  gameEnd (run s [NewTick; NewKeyPress KeyJ; NewPlayRandomNote]) = true.
Proof.
  intro s.
  destruct (gameEnd_is_final s eq_refl) as [Hone Hmany].
  split; [apply Hone | apply Hmany].
Defined.

(** ** Ten hits in a row raise the multiplier once (C3) *)

Lemma no_miss_app (s : State) (l1 l2 : list Action) :
  no_miss s (l1 ++ l2) = no_miss s l1 && no_miss (run s l1) l2.
Proof.
  revert s. induction l1 as [|a l1 IH]; intro s; simpl; [reflexivity|].
  rewrite IH, andb_assoc. reflexivity.
Qed.

Lemma presses_cons (a : Action) (l : list Action) :
  presses (a :: l) = ((if is_KeyPress a then 1 else 0) + presses l)%nat.
Proof. unfold presses. simpl. destruct (is_KeyPress a); reflexivity. Qed.

(** A combo that starts at [consecutiveHits s] and does not pass 10: the
    counter grows by the number of presses, and the multiplier moves only
    when the counter reaches 10. *)
Lemma combo_run (actions : list Action) (s : State) :
  (0 <= consecutiveHits s)%Z ->
  no_miss s actions = true ->
  (consecutiveHits s + Z.of_nat (presses actions) <= 10)%Z ->
  consecutiveHits (run s actions)
    = (consecutiveHits s + Z.of_nat (presses actions))%Z /\
  multiplier (run s actions)
    = if (0 <? presses actions)%nat
         && (consecutiveHits s + Z.of_nat (presses actions) =? 10)%Z
      then multiplier s + (2 # 10)
      else multiplier s.
Proof.
  revert s. induction actions as [|a actions IH]; intros s Hc Hn Hp.
  - simpl. split; [lia | reflexivity].
  - simpl in Hn. apply andb_true_iff in Hn. destruct Hn as [Ha Hn].
    apply negb_true_iff in Ha. rewrite presses_cons in Hp |- *.
    change (run s (a :: actions)) with (run (reduceState s a) actions).
    assert (Hother :
      is_KeyPress a = false ->
      consecutiveHits (reduceState s a) = consecutiveHits s ->
      multiplier (reduceState s a) = multiplier s ->
      consecutiveHits (run (reduceState s a) actions)
        = (consecutiveHits s
           + Z.of_nat ((if is_KeyPress a then 1 else 0) + presses actions))%Z /\
      multiplier (run (reduceState s a) actions)
        = if (0 <? (if is_KeyPress a then 1 else 0) + presses actions)%nat
             && (consecutiveHits s
                 + Z.of_nat ((if is_KeyPress a then 1 else 0)
                             + presses actions) =? 10)%Z
          then multiplier s + (2 # 10)
          else multiplier s).
    { intros Hk Ec Em. rewrite Hk in Hp |- *. rewrite Nat.add_0_l in Hp |- *.
      destruct (IH (reduceState s a)) as [IH1 IH2];
        [rewrite Ec; exact Hc | exact Hn | rewrite Ec; exact Hp|].
      rewrite IH1, IH2, Ec, Em. split; reflexivity. }
    destruct a as [|note|key|]; simpl in Ha.
    + apply Hother; [reflexivity | |]; unfold reduceState, Action_apply.
      * rewrite Tick_consecutiveHits, Ha. reflexivity.
      * rewrite Tick_multiplier, Ha. reflexivity.
    + apply Hother; [reflexivity | |]; unfold reduceState, Action_apply;
        destruct (AddNotes_cases note s) as [[_ ->] | [_ ->]]; reflexivity.
    + clear Hother.
      change (if is_KeyPress (NewKeyPress key) then 1 else 0)%nat
        with 1%nat in Hp |- *.
      assert (Hlt : Nat.ltb 0 (notesHit key s) = true).
      { apply Nat.ltb_lt. apply Nat.eqb_neq in Ha. lia. }
      assert (Ec : consecutiveHits (reduceState s (NewKeyPress key))
                   = (consecutiveHits s + 1)%Z).
      { unfold reduceState, Action_apply.
        rewrite KeyPress_consecutiveHits, Hlt. reflexivity. }
      assert (Em : multiplier (reduceState s (NewKeyPress key))
                   = if (consecutiveHits s + 1 =? 10)%Z
                     then multiplier s + (2 # 10) else multiplier s).
      { unfold reduceState, Action_apply. rewrite KeyPress_multiplier, Hlt.
        unfold KeyPress.calculateMultiplier.
        destruct (Z.eqb_spec (consecutiveHits s + 1) 10) as [E10 | N10].
        - rewrite E10. reflexivity.
        - rewrite Z.rem_small by lia.
          destruct (Z.eqb_spec (consecutiveHits s + 1) 0);
            [lia | reflexivity]. }
      destruct (IH (reduceState s (NewKeyPress key))) as [IH1 IH2];
        [rewrite Ec; lia | exact Hn | rewrite Ec; lia|].
      rewrite IH1, IH2, Ec, Em. split; [lia|].
      destruct (Nat.ltb_spec 0 (presses actions));
        destruct (Nat.ltb_spec 0 (1 + presses actions));
        destruct (Z.eqb_spec (consecutiveHits s + 1) 10);
        destruct (Z.eqb_spec
                    (consecutiveHits s + 1 + Z.of_nat (presses actions)) 10);
        destruct (Z.eqb_spec
                    (consecutiveHits s + Z.of_nat (1 + presses actions)) 10);
        simpl andb; cbv iota; try reflexivity; lia.
    + apply Hother; reflexivity.
Qed.

(** C3.  From a state with [consecutiveHits = 0] and multiplier [m], a
    sequence of actions none of which misses and of which exactly ten are key
    presses ends with multiplier [m + 0.2]; before the tenth press the
    multiplier is still [m], and the combo counter ends at 10. *)
Theorem ten_hits_raise_multiplier_once (s : State) (actions : list Action) :
  consecutiveHits s = 0%Z ->
  no_miss s actions = true ->
  presses actions = 10%nat ->
  multiplier (run s actions) = multiplier s + (2 # 10) /\
  consecutiveHits (run s actions) = 10%Z /\
  (forall before after,
     actions = before ++ after -> (presses before < 10)%nat ->
     multiplier (run s before) = multiplier s).
Proof.
  intros Hc Hn Hp.
  destruct (combo_run actions s) as [H1 H2];
    [lia | exact Hn | rewrite Hc, Hp; simpl; lia|].
  rewrite Hc, Hp in H1, H2. simpl in H1, H2.
  split; [exact H2|]. split; [exact H1|].
  intros before after -> Hb.
  rewrite no_miss_app in Hn. apply andb_true_iff in Hn. destruct Hn as [Hn _].
  destruct (combo_run before s) as [_ H4]; [lia | exact Hn | lia|].
  rewrite H4, Hc.
  destruct (Z.eqb_spec (0 + Z.of_nat (presses before)) 10); [lia|].
  rewrite andb_false_r. reflexivity.
Qed.

Lemma ten_hits_raise_multiplier_once_witness :
  multiplier (run initialState ten_hits) = 1 + (2 # 10) /\
  consecutiveHits (run initialState ten_hits) = 10%Z.
Proof.
  destruct (ten_hits_raise_multiplier_once initialState ten_hits)
    as [Hm [Hc _]].
  - reflexivity.
  - vm_compute. reflexivity.
  - vm_compute. reflexivity.
  - split; [exact Hm | exact Hc].
Defined.

(** ** A hit note stays hit (C5) *)

Lemma same_note_refl (n : Note) : same_note n n.
Proof. repeat split. Qed.

Lemma hit_not_hittable (key : Key) (n : Note) :
  hit n = true -> KeyPress.isNoteHittable key n = false.
Proof.
  intro H. unfold KeyPress.isNoteHittable. rewrite H. apply andb_false_r.
Qed.

Lemma updateNote_same_note (key : Key) (n : Note) :
  same_note n (KeyPress.updateNote key n).
Proof.
  unfold KeyPress.updateNote.
  destruct (KeyPress.isNoteHittable key n); repeat split.
Qed.

Lemma updateNote_keeps_hit (key : Key) (n : Note) :
  hit n = true -> hit (KeyPress.updateNote key n) = true.
Proof.
  intro H. unfold KeyPress.updateNote.
  destruct (KeyPress.isNoteHittable key n); [reflexivity | exact H].
Qed.

Lemma descends_map (f : Note -> Note) (l : list Note) :
  (forall n, same_note n (f n)) ->
  (forall n, hit n = true -> hit (f n) = true) ->
  descends [] l (map f l).
Proof.
  intros Hsame Hhit. induction l as [|n l IH]; simpl.
  - constructor.
  - apply descends_kept; auto.
Qed.

Lemma descends_tick (l : list Note) :
  descends [] l
    (filter Tick.isNoteInPlayArea (map Tick.updateNotePosition l)).
Proof.
  induction l as [|n l IH]; simpl.
  - constructor.
  - destruct (Tick.isNoteInPlayArea (Tick.updateNotePosition n)).
    + apply descends_kept; [repeat split | auto | exact IH].
    + apply descends_gone. exact IH.
Qed.

Lemma descends_app (fresh l : list Note) : descends fresh l (l ++ fresh).
Proof.
  induction l as [|n l IH]; simpl.
  - constructor.
  - apply descends_kept; [apply same_note_refl | auto | exact IH].
Qed.

(** C5.  A note that is hit is not hittable for any key and a key press
    leaves it as it is; and no action turns the hit flag of a note from true
    to false: after an action every note of the state is gone or is the same
    note, hit if it was hit, and only the note of an AddNotes is new. *)
Theorem hit_is_permanent :
  (forall key n,
     hit n = true ->
     KeyPress.isNoteHittable key n = false /\ KeyPress.updateNote key n = n)
  /\
  (forall key s,
     Forall2 (fun n n' => hit n = true -> n' = n)
             (notes s) (notes (KeyPress.apply key s))) /\
  (forall action s,
     descends (fresh_of action) (notes s) (notes (reduceState s action))).
Proof.
  assert (H1 : forall key n,
     hit n = true ->
     KeyPress.isNoteHittable key n = false /\ KeyPress.updateNote key n = n).
  { intros key n H. split; [apply hit_not_hittable; exact H|].
    unfold KeyPress.updateNote. rewrite (hit_not_hittable key n H).
    reflexivity. }
  split; [exact H1|]. split.
  - intros key s. rewrite KeyPress_notes.
    induction (notes s) as [|n l IH]; simpl; constructor; [|exact IH].
    intro H. apply H1. exact H.
  - intros [|note|key|] s; unfold reduceState, Action_apply, fresh_of.
    + rewrite Tick_notes. apply descends_tick.
    + destruct (AddNotes_cases note s) as [[E ->] | [E ->]]; simpl notes.
      * rewrite E. simpl. rewrite <- (app_nil_r (notes s)) at 2.
        apply descends_app.
      * apply String.eqb_neq in E. rewrite E. apply descends_app.
    + rewrite KeyPress_notes. apply descends_map.
      * apply updateNote_same_note.
      * apply updateNote_keeps_hit.
    + simpl. rewrite <- (app_nil_r (notes s)) at 2. apply descends_app.
Qed.

Lemma hit_is_permanent_witness :
  let n := sample_note "4" 2 350 true in
  KeyPress.isNoteHittable KeyK n = false /\ KeyPress.updateNote KeyK n = n.
Proof.
  intro n. destruct hit_is_permanent as [H _].
  apply (H KeyK n). reflexivity.
Defined.

(** ** A hit note is pinned and leaves on the next tick (C6) *)

Lemma pinned_leaves (n : Note) :
  y n = Constants.HIT_LINE_Y + NOTE_VELOCITY ->
  Tick.isNoteInPlayArea (Tick.updateNotePosition n) = false.
Proof.
  intro H. unfold Tick.isNoteInPlayArea, Tick.updateNotePosition.
  cbn [y]. rewrite H. reflexivity.
Qed.

Lemma updateNote_hittable (key : Key) (n : Note) :
  KeyPress.isNoteHittable key n = true ->
  hit (KeyPress.updateNote key n) = true /\
  y (KeyPress.updateNote key n) = Constants.HIT_LINE_Y + NOTE_VELOCITY.
Proof.
  intro H. unfold KeyPress.updateNote. rewrite H. split; reflexivity.
Qed.

(** C6.  A key press rewrites every hittable note with [hit = true] and
    [y = HIT_LINE_Y + NOTE_VELOCITY] and leaves the other notes and the length
    of the list as they are; the rewritten note is outside the play area
    after one more step, so the notes after the next tick are those that the
    tick keeps among the notes the press did not hit. *)
Theorem hit_notes_leave_on_next_tick (key : Key) (s : State) :
  Forall2
    (fun n n' =>
       if KeyPress.isNoteHittable key n
       then hit n' = true /\
            y n' = Constants.HIT_LINE_Y + NOTE_VELOCITY /\
            same_note n n'
       else n' = n)
    (notes s) (notes (KeyPress.apply key s)) /\
  (forall n,
     In n (notes s) -> KeyPress.isNoteHittable key n = true ->
     Tick.isNoteInPlayArea
       (Tick.updateNotePosition (KeyPress.updateNote key n)) = false) /\
  notes (Tick.apply (KeyPress.apply key s)) =
    filter Tick.isNoteInPlayArea
      (map Tick.updateNotePosition
         (filter (fun n => negb (KeyPress.isNoteHittable key n)) (notes s))).
Proof.
  split; [|split].
  - rewrite KeyPress_notes.
    induction (notes s) as [|n l IH]; simpl; constructor; [|exact IH].
    destruct (KeyPress.isNoteHittable key n) eqn:E.
    + destruct (updateNote_hittable key n E) as [Hh Hy].
      split; [exact Hh|]. split; [exact Hy | apply updateNote_same_note].
    + unfold KeyPress.updateNote. rewrite E. reflexivity.
  - intros n _ E. apply pinned_leaves. apply updateNote_hittable. exact E.
  - rewrite Tick_notes, KeyPress_notes.
    induction (notes s) as [|n l IH]; simpl; [reflexivity|].
    destruct (KeyPress.isNoteHittable key n) eqn:E; simpl.
    + rewrite pinned_leaves by (apply updateNote_hittable; exact E).
      exact IH.
    + assert (En : KeyPress.updateNote key n = n)
        by (unfold KeyPress.updateNote; rewrite E; reflexivity).
      rewrite En, IH. reflexivity.
Qed.

Lemma hit_notes_leave_on_next_tick_witness :
  let n := sample_note "1" 1 350 false in
  Tick.isNoteInPlayArea
    (Tick.updateNotePosition (KeyPress.updateNote KeyJ n)) = false /\
  map id (notes (KeyPress.apply KeyJ sample_state)) = ["0"; "1"]%string /\
  map id (notes (Tick.apply (KeyPress.apply KeyJ sample_state))) = [].
Proof.
  intro n.
  destruct (hit_notes_leave_on_next_tick KeyJ sample_state) as [_ [H Ht]].
  split; [|split].
  - apply H; [right; left; reflexivity | reflexivity].
  - reflexivity.
  - rewrite Ht. reflexivity.
Defined.

(** ** A missed note is counted once (C10) *)

Lemma missed_leaves (n : Note) :
  Tick.isMissedNote n = true ->
  Tick.isNoteInPlayArea (Tick.updateNotePosition n) = false.
Proof.
  intro H. apply isMissedNote_spec in H. destruct H as [Hy _].
  unfold Tick.isNoteInPlayArea, Tick.updateNotePosition. cbn [y].
  destruct (Qleb _ _) eqn:E; [|reflexivity].
  apply Qleb_true in E. lra.
Qed.

Lemma NoDup_map_In_eq {A B : Type} (f : A -> B) (l : list A) (a b : A) :
  NoDup (map f l) -> In a l -> In b l -> f a = f b -> a = b.
Proof.
  induction l as [|x l IH]; simpl; intros Hnd Ha Hb Hf; [contradiction|].
  inversion Hnd as [|? ? Hx Hnd']; subst.
  destruct Ha as [-> | Ha], Hb as [-> | Hb].
  - reflexivity.
  - exfalso. apply Hx. rewrite Hf. apply in_map. exact Hb.
  - exfalso. apply Hx. rewrite <- Hf. apply in_map. exact Ha.
  - apply IH; assumption.
Qed.

Lemma tick_survivor_origin (l : list Note) (i : string) :
  In i (map id
          (filter Tick.isNoteInPlayArea (map Tick.updateNotePosition l))) ->
  exists n, In n l /\ id n = i /\
            Tick.isNoteInPlayArea (Tick.updateNotePosition n) = true.
Proof.
  intro H. apply in_map_iff in H. destruct H as [n' [Hid Hin]].
  apply filter_In in Hin. destruct Hin as [Hin Hp].
  apply in_map_iff in Hin. destruct Hin as [n [<- Hn]].
  exists n. auto.
Qed.

(** A tick removes at least as many notes that are not hit as it counts. *)
Lemma tick_unhit (l : list Note) :
  (unhit (filter Tick.isNoteInPlayArea (map Tick.updateNotePosition l))
   + List.length (filter Tick.isMissedNote l) <= unhit l)%nat.
Proof.
  unfold unhit. induction l as [|n l IH]; simpl; [lia|].
  destruct (Tick.isMissedNote n) eqn:Em.
  - rewrite (missed_leaves n Em).
    apply isMissedNote_spec in Em. destruct Em as [_ ->]. simpl. lia.
  - destruct (Tick.isNoteInPlayArea (Tick.updateNotePosition n));
      simpl; destruct (hit n); simpl; lia.
Qed.

Lemma keypress_unhit (key : Key) (l : list Note) :
  (unhit (map (KeyPress.updateNote key) l) <= unhit l)%nat.
Proof.
  unfold unhit. induction l as [|n l IH]; simpl; [lia|].
  unfold KeyPress.updateNote at 1.
  destruct (KeyPress.isNoteHittable key n); simpl;
    destruct (hit n); simpl; lia.
Qed.

Lemma unhit_app (l1 l2 : list Note) :
  unhit (l1 ++ l2) = (unhit l1 + unhit l2)%nat.
Proof. unfold unhit. rewrite filter_app, length_app. reflexivity. Qed.

(** One action raises [missedNotes] plus the number of notes not hit by at
    most one, and only when it adds a note. *)
Lemma missed_potential_step (s : State) (action : Action) :
  (missedNotes (reduceState s action)
   + Z.of_nat (unhit (notes (reduceState s action)))
   <= missedNotes s + Z.of_nat (unhit (notes s))
      + (if is_AddNotes action then 1 else 0))%Z.
Proof.
  destruct action as [|note|key|]; unfold reduceState, Action_apply;
    cbn [is_AddNotes].
  - rewrite Tick_missedNotes, Tick_notes. unfold missedCount.
    pose proof (tick_unhit (notes s)). lia.
  - destruct (AddNotes_cases note s) as [[_ ->] | [_ ->]];
      cbn [missedNotes notes].
    + lia.
    + rewrite unhit_app. unfold unhit at 2. simpl.
      destruct (hit note); simpl; lia.
  - rewrite KeyPress_notes. change (missedNotes (KeyPress.apply key s))
      with (missedNotes s).
    pose proof (keypress_unhit key (notes s)). lia.
  - change (PlayRandomNote.apply s) with
      (mkState (notes s) (score s) (missedNotes s) (gameEnd s) (multiplier s)
               (consecutiveHits s) (shouldPlayRandomNote s)).
    cbn [missedNotes notes]. lia.
Qed.

Lemma missed_potential_run (actions : list Action) (s : State) :
  (missedNotes (run s actions) + Z.of_nat (unhit (notes (run s actions)))
   <= missedNotes s + Z.of_nat (unhit (notes s)) + Z.of_nat (adds actions))%Z.
Proof.
  revert s. induction actions as [|a actions IH]; intro s.
  - simpl. unfold adds. simpl. lia.
  - change (run s (a :: actions)) with (run (reduceState s a) actions).
    specialize (IH (reduceState s a)).
    pose proof (missed_potential_step s a) as Hstep.
    unfold adds in *. simpl filter.
    destruct (is_AddNotes a); simpl List.length; lia.
Qed.

(** C10.  A note that a tick counts as missed is out of the play area once
    moved, so the notes after the tick are the moved notes that were not
    counted; with distinct ids no note of the new state has the id of a
    counted note.  Hence no note is counted twice: over any sequence of
    actions [missedNotes] grows by at most the number of notes that were not
    hit plus the number of AddNotes actions. *)
Theorem missed_note_counted_once (s : State) :
  (forall n,
     In n (notes s) -> Tick.isMissedNote n = true ->
     Tick.isNoteInPlayArea (Tick.updateNotePosition n) = false) /\
  notes (Tick.apply s) =
    map Tick.updateNotePosition
      (filter (fun n => negb (Tick.isMissedNote n)
                        && Tick.isNoteInPlayArea (Tick.updateNotePosition n))
              (notes s)) /\
  (NoDup (map id (notes s)) ->
   forall n,
     In n (notes s) -> Tick.isMissedNote n = true ->
     ~ In (id n) (map id (notes (Tick.apply s)))) /\
  (forall actions,
     (missedNotes (run s actions)
      <= missedNotes s + Z.of_nat (unhit (notes s))
         + Z.of_nat (adds actions))%Z).
Proof.
  split; [|split; [|split]].
  - intros n _ H. apply missed_leaves. exact H.
  - rewrite Tick_notes.
    induction (notes s) as [|n l IH]; simpl; [reflexivity|].
    destruct (Tick.isMissedNote n) eqn:Em; simpl.
    + rewrite (missed_leaves n Em). exact IH.
    + destruct (Tick.isNoteInPlayArea (Tick.updateNotePosition n));
        simpl; rewrite IH; reflexivity.
  - intros Hnd n Hn Hm Hin. rewrite Tick_notes in Hin.
    apply tick_survivor_origin in Hin. destruct Hin as [n0 [Hn0 [Hid Hp]]].
    assert (n0 = n) by (apply (NoDup_map_In_eq id (notes s)); assumption).
    subst n0. rewrite (missed_leaves n Hm) in Hp. discriminate.
  - intro actions. pose proof (missed_potential_run actions s). lia.
Qed.

Lemma missed_note_counted_once_witness :
  let n := sample_note "0" 0 351 false in
  Tick.isNoteInPlayArea (Tick.updateNotePosition n) = false /\
  ~ In (id n) (map id (notes (Tick.apply sample_state))) /\
  (missedNotes (run sample_state [NewTick; NewTick; NewTick]) <= 5)%Z.
Proof.
  intro n.
  destruct (missed_note_counted_once sample_state) as [H1 [_ [H3 H4]]].
  split; [|split].
  - apply H1; [left; reflexivity | reflexivity].
  - apply H3; [|left; reflexivity | reflexivity].
    repeat constructor; simpl; intuition discriminate.
  - apply (H4 [NewTick; NewTick; NewTick]).
Defined.

(** ** The random number generator (C8) *)

Lemma round_to_double_exact (z : Z) :
  (Z.abs z < 2 ^ 53)%Z -> round_to_double z = z.
Proof.
  intro H. unfold round_to_double.
  destruct (Z.leb_spec (Z.log2 (Z.abs z) - 52) 0) as [_ | Hlog];
    [reflexivity|].
  exfalso. destruct (Z.eq_dec (Z.abs z) 0) as [E | N].
  - rewrite E in Hlog. simpl in Hlog. lia.
  - assert (Hpos : (0 < Z.abs z)%Z) by lia.
    apply (Z.log2_lt_pow2 _ 53 Hpos) in H. lia.
Qed.

Lemma round_to_double_nonneg (z : Z) :
  (0 <= z)%Z -> (0 <= round_to_double z)%Z.
Proof.
  intro H. unfold round_to_double.
  destruct (Z.leb_spec (Z.log2 (Z.abs z) - 52) 0) as [_ | He]; [exact H|].
  set (e := (Z.log2 (Z.abs z) - 52)%Z) in *.
  assert (Hq : (0 <= Z.shiftr (Z.abs z) e)%Z)
    by (apply Z.shiftr_nonneg; lia).
  apply Z.mul_nonneg_nonneg; [lia|].
  apply Z.shiftl_nonneg.
  destruct (_ <? _)%Z; [exact Hq|].
  destruct (_ <? _)%Z; [lia|].
  destruct (Z.even _); lia.
Qed.

Lemma hash_nonneg_seed (seed : Z) :
  (0 <= seed)%Z -> (0 <= RNG.hash seed <= 2 ^ 31 - 1)%Z.
Proof.
  intro H. unfold RNG.hash, number_add, number_mul, RNG.a, RNG.c, RNG.m.
  change 0x80000000%Z with (2 ^ 31)%Z.
  set (x := round_to_double (round_to_double (1103515245 * seed) + 12345)).
  assert (Hx : (0 <= x)%Z).
  { apply round_to_double_nonneg.
    pose proof (round_to_double_nonneg (1103515245 * seed)). lia. }
  rewrite Z.rem_mod_nonneg by lia.
  pose proof (Z.mod_pos_bound x (2 ^ 31)). lia.
Qed.

Lemma hash_exact (seed : Z) :
  (0 <= seed)%Z -> (1103515245 * seed + 12345 < 2 ^ 53)%Z ->
  RNG.hash seed = ((1103515245 * seed + 12345) mod 2 ^ 31)%Z.
Proof.
  intros H Hs. unfold RNG.hash, number_add, number_mul, RNG.a, RNG.c, RNG.m.
  change 0x80000000%Z with (2 ^ 31)%Z.
  rewrite (round_to_double_exact (1103515245 * seed)) by lia.
  rewrite round_to_double_exact by lia.
  apply Z.rem_mod_nonneg; lia.
Qed.

Lemma scale_bounds (h : Z) :
  (0 <= h <= 2 ^ 31 - 1)%Z -> -1 <= RNG.scale h /\ RNG.scale h <= 1.
Proof.
  intros [Hlo Hhi]. unfold RNG.scale, RNG.m.
  assert (Hd : inject_Z 0x80000000 - 1 == 2147483647) by reflexivity.
  rewrite Hd.
  assert (H0 : 0 <= inject_Z h) by (apply inject_Z_nonneg; exact Hlo).
  assert (H1 : inject_Z h <= 2147483647).
  { change 2147483647 with (inject_Z 2147483647). rewrite <- Zle_Qle.
    change (2 ^ 31 - 1)%Z with 2147483647%Z in Hhi. exact Hhi. }
  assert (Hq : 0 <= 2 * inject_Z h / 2147483647 /\
               2 * inject_Z h / 2147483647 <= 2).
  { split.
    - apply Qle_shift_div_l; [reflexivity | lra].
    - apply Qle_shift_div_r; [reflexivity | lra]. }
  destruct Hq. split; lra.
Qed.

(** C8, for the seeds the generator is used with.  For every seed from 0
    to 2^53 (the integers in that range are the ones a double holds exactly,
    and the products stay finite), [scale (hash seed)] is between -1 and 1,
    and when [1103515245 * seed + 12345] is below 2^53, [hash seed] is
    [(1103515245 * seed + 12345) mod 2^31]. *)
Theorem rng_hash_scale (seed : Z) :
  (0 <= seed <= 2 ^ 53)%Z ->
  ((1103515245 * seed + 12345 < 2 ^ 53)%Z ->
   RNG.hash seed = ((1103515245 * seed + 12345) mod 2 ^ 31)%Z) /\
  -1 <= RNG.scale (RNG.hash seed) /\ RNG.scale (RNG.hash seed) <= 1.
Proof.
  intros [H _]. split; [apply hash_exact; exact H|].
  apply scale_bounds. apply hash_nonneg_seed. exact H.
Qed.

Lemma rng_hash_scale_witness :
  RNG.hash 12345 = 1406932606%Z /\
  -1 <= RNG.scale (RNG.hash 12345) /\ RNG.scale (RNG.hash 12345) <= 1.
Proof.
  destruct (rng_hash_scale 12345) as [Hh Hs]; [lia|].
  split; [rewrite Hh; [reflexivity | reflexivity] | exact Hs].
Defined.

(** With the seed -1 the remainder keeps the sign of the dividend: the hash
    is negative and the scaled value is below -1.  With the seed 1406932606,
    the second number of the stream that starts at 0, the product is above
    2^53 and is rounded: the hash is not the residue modulo 2^31. *)
Lemma rng_negative_seed_and_rounding :
  RNG.hash (-1) = (-1103502900)%Z /\
  ~ (-1 <= RNG.scale (RNG.hash (-1)) /\ RNG.scale (RNG.hash (-1)) <= 1) /\
  RNG.hash (RNG.hash 0) = 1406932606%Z /\
  RNG.hash 1406932606 = 654583808%Z /\
  ((1103515245 * 1406932606 + 12345) mod 2 ^ 31)%Z = 654583775%Z.
Proof.
  split; [reflexivity|]. split; [|repeat split; reflexivity].
  intros [H _]. vm_compute in H. apply H. reflexivity.
Qed.

(** ** The chart stream and its sentinel (C7) *)

Lemma insert_event_perm {A : Type} (e : Q * A) (l : list (Q * A)) :
  Permutation (Rx.insert_event e l) (e :: l).
Proof.
  induction l as [|e' l IH]; simpl; [reflexivity|].
  destruct (Qle_bool (fst e') (fst e)); [|reflexivity].
  rewrite IH. apply perm_swap.
Qed.

Lemma merge2_perm {A : Type} (o1 o2 : Observable A) :
  Permutation (events (Rx.merge2 o1 o2)) (events o1 ++ events o2).
Proof.
  unfold Rx.merge2. cbn [events].
  generalize (events o1) as acc. induction (events o2) as [|e l IH];
    intro acc; simpl.
  - rewrite app_nil_r. reflexivity.
  - rewrite IH, insert_event_perm. apply Permutation_middle.
Qed.

Lemma bounded_merge2 {A : Type} (o1 o2 : Observable A) :
  bounded o1 -> bounded o2 -> bounded (Rx.merge2 o1 o2).
Proof.
  unfold bounded. intros H1 H2.
  apply (Permutation_Forall (Permutation_sym (merge2_perm o1 o2))).
  cbn [completion Rx.merge2]. apply Forall_app. split.
  - eapply Forall_impl; [|exact H1]. intros e He. cbv beta in *.
    eapply Qle_trans; [exact He | apply Q.le_max_l].
  - eapply Forall_impl; [|exact H2]. intros e He. cbv beta in *.
    eapply Qle_trans; [exact He | apply Q.le_max_r].
Qed.

Lemma bounded_shift {A : Type} (t : Q) (o : Observable A) :
  bounded o -> bounded (Rx.shift t o).
Proof.
  unfold bounded, Rx.shift. cbn [events completion]. intro H.
  apply Forall_map. eapply Forall_impl; [|exact H].
  intros e He. cbn [fst] in *. lra.
Qed.

Lemma bounded_delay_of {A : Type} (d : Q) (x : A) :
  bounded (Rx.delay d (Rx.of_ x)).
Proof.
  unfold bounded, Rx.delay, Rx.of_. cbn. constructor; [|constructor].
  apply Q.le_max_r.
Qed.

Section MergeMap.
Context {A B : Type}.
Variable f : A -> Observable B.
Hypothesis f_bounded : forall x, bounded (f x).

Lemma bounded_mergeMap_from (l : list (Q * A)) (acc : Observable B) :
  bounded acc ->
  bounded (fold_left (fun acc e => Rx.merge2 acc (Rx.shift (fst e) (f (snd e))))
                     l acc).
Proof.
  revert acc. induction l as [|e l IH]; intros acc Hacc; simpl.
  - exact Hacc.
  - apply IH. apply bounded_merge2; [exact Hacc|].
    apply bounded_shift. apply f_bounded.
Qed.

Lemma bounded_mergeMap (o : Observable A) : bounded (Rx.mergeMap f o).
Proof.
  unfold Rx.mergeMap. apply bounded_mergeMap_from. constructor.
Qed.
End MergeMap.

(** When every inner observable emits its one value, the merged values are a
    rearrangement of the source values. *)
Lemma mergeMap_one_perm {A : Type} (f : A -> Observable A)
  (l : list (Q * A)) (acc : Observable A) :
  (forall x, map snd (events (f x)) = [x]) ->
  Permutation
    (map snd
       (events
          (fold_left
             (fun acc e => Rx.merge2 acc (Rx.shift (fst e) (f (snd e))))
             l acc)))
    (map snd (events acc) ++ map snd l).
Proof.
  intro Hf. revert acc. induction l as [|e l IH]; intro acc; simpl.
  - rewrite app_nil_r. reflexivity.
  - rewrite IH.
    rewrite (Permutation_map snd (merge2_perm acc _)).
    rewrite map_app, <- app_assoc. apply Permutation_app_head.
    unfold Rx.shift. cbn [events]. rewrite map_map. cbn [snd].
    change (map (fun x : Q * A => snd x) (events (f (snd e))))
      with (map snd (events (f (snd e)))).
    rewrite Hf. reflexivity.
Qed.

Lemma string_of_uint_digits (d : Decimal.uint) :
  all_digits (NilEmpty.string_of_uint d) = true.
Proof. induction d; simpl; auto. Qed.

Lemma index_to_string_not_sentinel (index : nat) :
  index_to_string index <> "gameEndNote"%string.
Proof.
  intro H. pose proof (string_of_uint_digits (Nat.to_uint index)) as Hd.
  unfold index_to_string in H. rewrite H in Hd. discriminate.
Qed.

Lemma mapi_from_In {A B : Type} (f : A -> nat -> B) (l : list (Q * A))
  (i : nat) (e : Q * B) :
  In e (Rx.mapi_from f i l) -> exists x j, snd e = f x j.
Proof.
  revert i. induction l as [|[t x] l IH]; intros i H; simpl in H.
  - contradiction.
  - destruct H as [<- | H]; [exists x, i; reflexivity | eauto].
Qed.

Section ChartProperties.
Variable parseInt : string -> Z.
Variable parseFloat : string -> Q.

Lemma chartNotes_ids (csvContents : string) (n : Note) :
  In n (map snd (events (chartNotes parseInt parseFloat csvContents))) ->
  id n <> "gameEndNote"%string.
Proof.
  intro H. apply in_map_iff in H. destruct H as [e [<- He]].
  unfold chartNotes, Rx.map in He. cbn [events] in He.
  apply mapi_from_In in He. destruct He as [line [j ->]].
  apply index_to_string_not_sentinel.
Qed.

Lemma scheduledNotes_perm (csvContents : string) :
  Permutation
    (map snd (events (scheduledNotes parseInt parseFloat csvContents)))
    (map snd (events (chartNotes parseInt parseFloat csvContents))).
Proof.
  unfold scheduledNotes, Rx.mergeMap.
  eapply Permutation_trans.
  - apply (mergeMap_one_perm
             (fun note => Rx.delay (calculateNoteDelay note) (Rx.of_ note))).
    reflexivity.
  - reflexivity.
Qed.

Lemma scheduledNotes_bounded (csvContents : string) :
  bounded (scheduledNotes parseInt parseFloat csvContents).
Proof.
  unfold scheduledNotes. apply bounded_mergeMap.
  intro note. apply bounded_delay_of.
Qed.
End ChartProperties.

(** C7, with the id the program gives the sentinel.  The stream of a chart
    is the chart notes, each once and in the order of their delays, and then
    one more note, the sentinel with id ["gameEndNote"], which comes
    [NOTE_FALL_TIME + 2000] after the chart notes are done; no chart note has
    that id; and AddNotes of the sentinel sets [gameEnd] and changes no other
    field. *)
Theorem chart_stream_ends_with_sentinel
  (parseInt : string -> Z) (parseFloat : string -> Q) (csvContents : string) :
  let chart := chartNotes parseInt parseFloat csvContents in
  let notes_ := scheduledNotes parseInt parseFloat csvContents in
  (exists t,
     events (parseCSV parseInt parseFloat csvContents)
       = events notes_ ++ [(t, gameEndNote)] /\
     t == completion notes_ + (Constants.NOTE_FALL_TIME + 2000) /\
     Forall (fun e => fst e <= t) (events notes_)) /\
  Permutation (map snd (events notes_)) (map snd (events chart)) /\
  Forall (fun e => id (snd e) <> "gameEndNote"%string) (events notes_) /\
  id gameEndNote = "gameEndNote"%string /\
  (forall s,
     AddNotes.apply gameEndNote s =
     {| notes := notes s; score := score s; missedNotes := missedNotes s;
        gameEnd := true; multiplier := multiplier s;
        consecutiveHits := consecutiveHits s;
        shouldPlayRandomNote := shouldPlayRandomNote s |}).
Proof.
  intros chart notes_.
  pose proof (scheduledNotes_bounded parseInt parseFloat csvContents) as Hb.
  pose proof (scheduledNotes_perm parseInt parseFloat csvContents) as Hp.
  fold notes_ in Hb, Hp. fold chart in Hp.
  split; [|split; [exact Hp | split; [|split; [reflexivity|]]]].
  - assert (E : Rx.due (Constants.NOTE_FALL_TIME + 2000)
                == Constants.NOTE_FALL_TIME + 2000).
    { unfold Rx.due. apply Q.max_r. discriminate. }
    exists (completion notes_
            + (0 + Rx.due (Constants.NOTE_FALL_TIME + 2000))).
    split; [reflexivity|]. split.
    + rewrite E. lra.
    + eapply Forall_impl; [|exact Hb]. intros e He. cbv beta in *.
      rewrite E. unfold Constants.NOTE_FALL_TIME. lra.
  - apply Forall_forall. intros e He.
    apply (chartNotes_ids parseInt parseFloat csvContents).
    apply (Permutation_in _ Hp). apply in_map. exact He.
  - intro s. reflexivity.
Qed.

(** The program's sentinel has the id ["gameEndNote"], not ["end-of-game"]:
    the stream of a chart of two rows has no note with the id
    ["end-of-game"], and AddNotes of a note with that id appends it and
    leaves [gameEnd] false. *)
Lemma sentinel_is_not_end_of_game :
  let stream := events (parseCSV sample_parseInt sample_parseFloat two_rows) in
  map (fun e => (Qred (fst e), id (snd e))) stream
    = [(0, "1"); (3200, "0"); (7000, "gameEndNote")]%string /\
  ~ In "end-of-game"%string (map (fun e => id (snd e)) stream) /\
  (let n := sample_note "end-of-game" 0 0 false in
   gameEnd (AddNotes.apply n initialState) = false /\
   notes (AddNotes.apply n initialState) = [n]).
Proof.
  split; [vm_compute; reflexivity|]. split; [|split; reflexivity].
  vm_compute. intuition discriminate.
Qed.

(** * More properties of the reducer *)

(** ** The multiplier is a function of the combo *)

Lemma combo_step_next (c : Z) :
  (0 <= c)%Z ->
  ((c + 1) / 10 =
   if Z.rem (c + 1) 10 =? 0 then c / 10 + 1 else c / 10)%Z.
Proof.
  intro H. rewrite Z.rem_mod_nonneg by lia.
  destruct (Z.eqb_spec ((c + 1) mod 10) 0) as [E | N];
    Z.div_mod_to_equations; lia.
Qed.

Lemma combo_inv_step (s : State) (action : Action) :
  combo_inv s -> combo_inv (reduceState s action).
Proof.
  unfold combo_inv, combo_steps. intros [Hc Hm].
  destruct action as [|note|key|]; unfold reduceState, Action_apply.
  - rewrite Tick_consecutiveHits, Tick_multiplier.
    destruct (Nat.ltb 0 _); [split; [lia | reflexivity] | auto].
  - destruct (AddNotes_cases note s) as [[_ ->] | [_ ->]];
      cbn [consecutiveHits multiplier]; auto.
  - rewrite KeyPress_consecutiveHits, KeyPress_multiplier.
    destruct (Nat.ltb 0 _); [|split; [lia | reflexivity]].
    split; [lia|]. unfold KeyPress.calculateMultiplier.
    rewrite (combo_step_next _ Hc).
    destruct (Z.rem (consecutiveHits s + 1) 10 =? 0)%Z; [|exact Hm].
    assert (Hd : (0 <= consecutiveHits s / 10)%Z)
      by (apply Z.div_pos; lia).
    rewrite Z2Nat.inj_add by lia. rewrite Nat.add_1_r.
    unfold raised in *. rewrite Nat.iter_succ, <- Hm. reflexivity.
  - split; [exact Hc | exact Hm].
Qed.

(** X1.  After any sequence of actions from the initial state the combo
    counter is not negative and the multiplier is 1 with 0.2 added once for
    every ten hits of the combo, [floor (consecutiveHits / 10)] additions
    made one after the other. *)
Theorem multiplier_follows_combo (actions : list Action) :
  (0 <= consecutiveHits (run initialState actions))%Z /\
  multiplier (run initialState actions)
    = raised (Z.to_nat (consecutiveHits (run initialState actions) / 10)).
Proof.
  assert (H : forall l s, combo_inv s -> combo_inv (run s l)).
  { induction l as [|a l IH]; intros s Hs; simpl; [exact Hs|].
    apply IH. apply combo_inv_step. exact Hs. }
  apply (H actions initialState). split; [simpl; lia | reflexivity].
Qed.

(** ** Missed notes only accumulate *)

Lemma missedNotes_step (s : State) (action : Action) :
  (missedNotes s <= missedNotes (reduceState s action))%Z /\
  (action <> NewTick -> missedNotes (reduceState s action) = missedNotes s).
Proof.
  destruct action as [|note|key|]; unfold reduceState, Action_apply.
  - rewrite Tick_missedNotes. split; [lia | congruence].
  - destruct (AddNotes_cases note s) as [[_ ->] | [_ ->]];
      cbn [missedNotes]; split; [lia | reflexivity | lia | reflexivity].
  - change (missedNotes (KeyPress.apply key s)) with (missedNotes s).
    split; [lia | reflexivity].
  - change (missedNotes (PlayRandomNote.apply s)) with (missedNotes s).
    split; [lia | reflexivity].
Qed.

(** X2.  [missedNotes] never goes down: after any sequence of actions it is
    at least what it was, it is moved by ticks only, and from the initial
    state it is never negative. *)
Theorem missedNotes_only_grows (s : State) (actions : list Action) :
  (missedNotes s <= missedNotes (run s actions))%Z /\
  (~ In NewTick actions -> missedNotes (run s actions) = missedNotes s) /\
  (0 <= missedNotes (run initialState actions))%Z.
Proof.
  assert (Hmono : forall l s', (missedNotes s' <= missedNotes (run s' l))%Z).
  { induction l as [|a l IH]; intro s'; simpl; [lia|].
    specialize (IH (reduceState s' a)).
    destruct (missedNotes_step s' a) as [H _]. lia. }
  split; [apply Hmono|]. split.
  - revert s. induction actions as [|a l IH]; intros s Hno; simpl;
      [reflexivity|].
    rewrite IH by (intro H; apply Hno; right; exact H).
    apply missedNotes_step. intro E. apply Hno. left. exact E.
  - apply (Hmono actions initialState).
Qed.

Lemma missedNotes_only_grows_witness :
  missedNotes
    (run sample_state
       [NewKeyPress KeyJ; NewAddNotes gameEndNote; NewPlayRandomNote])
  = 3%Z.
Proof.
  destruct (missedNotes_only_grows sample_state
              [NewKeyPress KeyJ; NewAddNotes gameEndNote; NewPlayRandomNote])
    as [_ [H _]].
  rewrite H; [reflexivity|].
  simpl. intuition discriminate.
Defined.

(** ** A key press that hits *)

(** X3.  In a reachable state a key press that hits [n > 0] notes gives the
    score [round (score + n * multiplier)], which is at least [score + n]
    and within one half of [score + n * multiplier]; the combo counter goes
    up by one and no random note is asked for. *)
Theorem keypress_with_hit (key : Key) (s : State) :
  reachable s ->
  (0 < notesHit key s)%nat ->
  let n := inject_Z (Z.of_nat (notesHit key s)) in
  let s' := KeyPress.apply key s in
  score s + n <= score s' /\
  score s + n * multiplier s - (1 # 2) < score s' /\
  score s' <= score s + n * multiplier s + (1 # 2) /\
  consecutiveHits s' = (consecutiveHits s + 1)%Z /\
  shouldPlayRandomNote s' = false.
Proof.
  intros Hr Hpos n s'.
  destruct (score_inv_reachable s Hr) as [[z [Hz Hs]] Hm].
  assert (Hn : 1 <= n).
  { unfold n. change 1 with (inject_Z 1). rewrite <- Zle_Qle. lia. }
  assert (E0 : Nat.eqb (notesHit key s) 0 = false)
    by (apply Nat.eqb_neq; lia).
  assert (Es : score s' = Math_round (score s + n * multiplier s * 1)).
  { unfold s'. rewrite KeyPress_score. unfold KeyPress.calculateScore.
    rewrite E0. reflexivity. }
  set (x := score s + n * multiplier s * 1) in Es.
  assert (Hx : x == score s + n * multiplier s) by (unfold x; ring).
  pose proof (Qfloor_le (x + (1 # 2))) as Hfl.
  pose proof (Qlt_floor (x + (1 # 2))) as Hlt.
  rewrite inject_Z_plus in Hlt. change (inject_Z 1) with 1 in Hlt.
  fold (Math_round x) in Hfl, Hlt. rewrite <- Es in Hfl, Hlt.
  split; [|split; [|split; [|split]]].
  - rewrite Es. unfold Math_round, n. rewrite Hs, <- inject_Z_plus.
    rewrite <- Zle_Qle.
    rewrite <- (Qfloor_Z (z + Z.of_nat (notesHit key s))).
    apply Qfloor_resp_le. rewrite inject_Z_plus, Hx, Hs. fold n.
    assert (n * 1 <= n * multiplier s) by (apply Qmult_le_l; lra).
    lra.
  - lra.
  - lra.
  - unfold s'. rewrite KeyPress_consecutiveHits.
    apply Nat.ltb_lt in Hpos. rewrite Hpos. reflexivity.
  - unfold s', KeyPress.apply. fold (notesHit key s). rewrite E0. reflexivity.
Qed.

Lemma keypress_with_hit_witness :
  let s := run initialState [NewAddNotes (sample_note "0" 0 350 false)] in
  score (KeyPress.apply KeyH s) == 1 /\
  consecutiveHits (KeyPress.apply KeyH s) = 1%Z.
Proof.
  intro s.
  assert (Hr : reachable s) by (apply reachable_run; constructor).
  assert (Hpos : (0 < notesHit KeyH s)%nat) by (vm_compute; lia).
  destruct (keypress_with_hit KeyH s Hr Hpos) as [_ [_ [_ [Hc _]]]].
  split; [reflexivity | exact Hc].
Defined.

(** ** Pressing the same key again *)

Lemma updateNote_not_hittable (key : Key) (n : Note) :
  KeyPress.isNoteHittable key (KeyPress.updateNote key n) = false.
Proof.
  unfold KeyPress.updateNote.
  destruct (KeyPress.isNoteHittable key n) eqn:E; [|exact E].
  apply hit_not_hittable. reflexivity.
Qed.

(** X4.  Right after a key press the same key hits nothing, in any state:
    the second press leaves the notes as they are, resets the combo and the
    multiplier and asks for a random note. *)
Theorem second_press_hits_nothing (key : Key) (s : State) :
  let s1 := KeyPress.apply key s in
  let s2 := KeyPress.apply key s1 in
  notesHit key s1 = 0%nat /\
  notes s2 = notes s1 /\
  consecutiveHits s2 = 0%Z /\
  multiplier s2 = 1 /\
  shouldPlayRandomNote s2 = true.
Proof.
  intros s1 s2.
  assert (H0 : notesHit key s1 = 0%nat).
  { apply filter_length_0. intros n Hn. unfold s1 in Hn.
    rewrite KeyPress_notes in Hn. apply in_map_iff in Hn.
    destruct Hn as [n0 [<- _]]. apply updateNote_not_hittable. }
  split; [exact H0|]. split; [|split; [|split]].
  - unfold s2, s1. rewrite !KeyPress_notes, map_map.
    apply map_ext. intro n.
    unfold KeyPress.updateNote at 1.
    rewrite updateNote_not_hittable. reflexivity.
  - unfold s2. rewrite KeyPress_consecutiveHits, H0. reflexivity.
  - unfold s2. rewrite KeyPress_multiplier, H0. reflexivity.
  - unfold s2, KeyPress.apply. fold (notesHit key s1). rewrite H0.
    reflexivity.
Qed.

(** ** Keys act on their own lane *)

Lemma KEY_BINDINGS_inj (k1 k2 : Key) :
  KEY_BINDINGS k1 = KEY_BINDINGS k2 -> k1 = k2.
Proof. destruct k1, k2; simpl; intro H; try reflexivity; discriminate. Qed.

Lemma updateNote_other_lane (key : Key) (n : Note) :
  column n <> KEY_BINDINGS key -> KeyPress.updateNote key n = n.
Proof.
  intro H. unfold KeyPress.updateNote, KeyPress.isNoteHittable.
  apply Z.eqb_neq in H. rewrite H. reflexivity.
Qed.

Lemma updateNote_column (key : Key) (n : Note) :
  column (KeyPress.updateNote key n) = column n.
Proof.
  unfold KeyPress.updateNote.
  destruct (KeyPress.isNoteHittable key n); reflexivity.
Qed.

(** X5.  A key press leaves the notes of the other lanes as they are, and
    two presses of different keys give the same notes in either order. *)
Theorem keys_act_on_their_lane (k1 k2 : Key) (s : State) :
  Forall2 (fun n n' =>
             if Z.eqb (column n) (KEY_BINDINGS k1)
             then column n' = column n
             else n' = n)
          (notes s) (notes (KeyPress.apply k1 s)) /\
  notes (KeyPress.apply k1 (KeyPress.apply k2 s))
    = notes (KeyPress.apply k2 (KeyPress.apply k1 s)).
Proof.
  split.
  - rewrite KeyPress_notes.
    induction (notes s) as [|n l IH]; simpl; constructor; [|exact IH].
    destruct (Z.eqb_spec (column n) (KEY_BINDINGS k1)) as [E | N].
    + apply updateNote_column.
    + apply updateNote_other_lane. exact N.
  - rewrite !KeyPress_notes, !map_map. apply map_ext. intro n.
    destruct (Z.eq_dec (column n) (KEY_BINDINGS k1)) as [E1 | N1];
      destruct (Z.eq_dec (column n) (KEY_BINDINGS k2)) as [E2 | N2].
    + assert (k1 = k2) by (apply KEY_BINDINGS_inj; congruence).
      subst k2. reflexivity.
    + rewrite (updateNote_other_lane k2 n N2). symmetry.
      apply updateNote_other_lane. rewrite updateNote_column. exact N2.
    + rewrite (updateNote_other_lane k1 n N1).
      apply updateNote_other_lane. rewrite updateNote_column. exact N1.
    + rewrite (updateNote_other_lane k2 n N2).
      rewrite (updateNote_other_lane k1 n N1).
      symmetry. apply updateNote_other_lane. exact N2.
Qed.

(** ** Adding notes *)

(** X6.  A run of AddNotes actions appends the notes that are not the
    sentinel, in order, ends the game exactly when one of the notes is the
    sentinel or the game was over, and changes nothing else. *)
Theorem add_all_appends (l : list Note) (s : State) :
  run s (add_all l) =
  {| notes := notes s ++ filter (fun n => negb (is_sentinel n)) l;
     score := score s;
     missedNotes := missedNotes s;
     gameEnd := gameEnd s || existsb is_sentinel l;
     multiplier := multiplier s;
     consecutiveHits := consecutiveHits s;
     shouldPlayRandomNote := shouldPlayRandomNote s |}.
Proof.
  revert s. induction l as [|n l IH]; intro s; simpl.
  - rewrite app_nil_r, orb_false_r. destruct s; reflexivity.
  - rewrite IH. unfold reduceState, Action_apply, AddNotes.apply, is_sentinel.
    destruct (String.eqb (id n) "gameEndNote"); simpl.
    + rewrite orb_true_r. reflexivity.
    + rewrite <- app_assoc. reflexivity.
Qed.

(** ** Several ticks in a row *)




Lemma moved_same_note (k : nat) (n : Note) :
  same_note n (moved k n) /\ hit (moved k n) = hit n.
Proof.
  induction k as [|k [IH1 IH2]].
  - split; [apply same_note_refl | reflexivity].
  - unfold moved in *. rewrite Nat.iter_succ.
    unfold Tick.updateNotePosition at 1 3. cbn [hit]. split; [|exact IH2].
    unfold same_note in *. cbn. exact IH1.
Qed.

Lemma isNoteInPlayArea_true (n : Note) :
  Tick.isNoteInPlayArea n = true <->
  y n <= Constants.HIT_LINE_Y + NOTE_VELOCITY.
Proof. apply Qleb_true. Qed.




(** ** The life of a note that starts at the top *)








(** ** Where the notes of a game are *)

Lemma NOTE_VELOCITY_positive : 0 < NOTE_VELOCITY.
Proof. reflexivity. Qed.

Lemma tick_note_ok (n : Note) :
  note_ok n ->
  Tick.isNoteInPlayArea (Tick.updateNotePosition n) = true ->
  note_ok (Tick.updateNotePosition n) /\ hit n = false.
Proof.
  intros [H0 [H1 H2]] Hin.
  assert (Hh : hit n = false).
  { destruct (hit n) eqn:E; [|reflexivity].
    rewrite (pinned_leaves n (H2 eq_refl)) in Hin. discriminate. }
  split; [|exact Hh].
  apply isNoteInPlayArea_true in Hin. pose proof NOTE_VELOCITY_positive.
  unfold note_ok, Tick.updateNotePosition in *. cbn [y hit] in *.
  split; [lra|]. split; [exact Hin|]. intro E. congruence.
Qed.

Lemma updateNote_ok (key : Key) (n : Note) :
  note_ok n -> note_ok (KeyPress.updateNote key n).
Proof.
  intro H. unfold KeyPress.updateNote.
  destruct (KeyPress.isNoteHittable key n); [|exact H].
  unfold note_ok. cbn [y hit].
  split; [discriminate|]. split; [apply Qle_refl | reflexivity].
Qed.

Lemma note_ok_step (s : State) (action : Action) :
  born_fresh action = true ->
  Forall note_ok (notes s) -> Forall note_ok (notes (reduceState s action)).
Proof.
  intros Hb Hs. destruct action as [|note|key|];
    unfold reduceState, Action_apply.
  - rewrite Tick_notes. apply Forall_forall. intros n' Hn'.
    apply filter_In in Hn'. destruct Hn' as [Hn' Hin].
    apply in_map_iff in Hn'. destruct Hn' as [n [<- Hn]].
    apply tick_note_ok; [|exact Hin].
    apply (proj1 (Forall_forall _ _) Hs). exact Hn.
  - destruct (AddNotes_cases note s) as [[_ ->] | [_ ->]]; cbn [notes];
      [exact Hs|].
    apply Forall_app. split; [exact Hs|]. constructor; [|constructor].
    simpl in Hb. apply andb_true_iff in Hb. destruct Hb as [Hy Hh].
    apply Qeq_bool_iff in Hy. apply negb_true_iff in Hh.
    unfold note_ok. split; [rewrite Hy; apply Qle_refl|].
    split; [rewrite Hy; discriminate | rewrite Hh; discriminate].
  - rewrite KeyPress_notes. apply Forall_map.
    eapply Forall_impl; [|exact Hs]. intro n. apply updateNote_ok.
  - exact Hs.
Qed.

(** X9.  In a game whose added notes start at [y = 0] and not hit, every
    note of every state is between [0] and [HIT_LINE_Y + NOTE_VELOCITY], a
    hit note is exactly at [HIT_LINE_Y + NOTE_VELOCITY], and right after a
    tick no note of the state is hit. *)
Theorem notes_of_a_game (actions : list Action) :
  forallb born_fresh actions = true ->
  let s := run initialState actions in
  Forall (fun n =>
            0 <= y n /\ y n <= Constants.HIT_LINE_Y + NOTE_VELOCITY /\
            (hit n = true -> y n = Constants.HIT_LINE_Y + NOTE_VELOCITY))
         (notes s) /\
  Forall (fun n => hit n = false) (notes (Tick.apply s)).
Proof.
  intros Hb s.
  assert (Hok : Forall note_ok (notes s)).
  { unfold s. clear s.
    assert (H : forall l s0,
              forallb born_fresh l = true ->
              Forall note_ok (notes s0) -> Forall note_ok (notes (run s0 l))).
    { induction l as [|a l IH]; intros s0 Hl H0; simpl; [exact H0|].
      simpl in Hl. apply andb_true_iff in Hl. destruct Hl as [Ha Hl].
      apply IH; [exact Hl|]. apply note_ok_step; assumption. }
    apply H; [exact Hb | constructor]. }
  split; [exact Hok|].
  rewrite Tick_notes. apply Forall_forall. intros n' Hn'.
  apply filter_In in Hn'. destruct Hn' as [Hn' Hin].
  apply in_map_iff in Hn'. destruct Hn' as [n [<- Hn]].
  change (hit (Tick.updateNotePosition n)) with (hit n).
  apply (tick_note_ok n); [|exact Hin].
  apply (proj1 (Forall_forall _ _) Hok). exact Hn.
Qed.

Lemma notes_of_a_game_witness :
  let actions :=
    NewAddNotes (sample_note "0" 0 0 false)
    :: ticks 105 ++ [NewKeyPress KeyH] in
  map hit (notes (run initialState actions)) = [true] /\
  Forall (fun n => hit n = false)
         (notes (Tick.apply (run initialState actions))).
Proof.
  intro actions. split; [vm_compute; reflexivity|].
  destruct (notes_of_a_game actions) as [_ H];
    [vm_compute; reflexivity | exact H].
Defined.

(** ** The sound of hit notes *)

Lemma sound_of_updateNote (key : Key) (n : Note) :
  sound_of (KeyPress.updateNote key n) = sound_of n.
Proof.
  unfold KeyPress.updateNote.
  destruct (KeyPress.isNoteHittable key n); reflexivity.
Qed.

Lemma hit_updateNote (key : Key) (n : Note) :
  hit (KeyPress.updateNote key n)
  = hit n || KeyPress.isNoteHittable key n.
Proof.
  unfold KeyPress.updateNote.
  destruct (KeyPress.isNoteHittable key n) eqn:E.
  - rewrite orb_true_r. reflexivity.
  - rewrite orb_false_r. reflexivity.
Qed.

(** X10.  When no note of the state is hit (as right after a tick), the
    state after a key press sounds exactly the notes the press hits, in
    order; and the state after any action but a tick sounds again every note
    that the state before it sounded. *)
Theorem sounds_of_a_press (s : State) :
  (forall key,
     Forall (fun n => hit n = false) (notes s) ->
     playHitNote (KeyPress.apply key s)
       = map sound_of (filter (KeyPress.isNoteHittable key) (notes s))) /\
  (forall action,
     action <> NewTick ->
     incl (playHitNote s) (playHitNote (reduceState s action))).
Proof.
  split.
  - intros key Hs. unfold playHitNote. rewrite KeyPress_notes.
    induction (notes s) as [|n l IH]; [reflexivity|].
    inversion Hs as [|? ? Hn Hl]; subst. cbn [map filter].
    rewrite hit_updateNote, Hn. cbn [orb].
    destruct (KeyPress.isNoteHittable key n); cbn [map].
    + rewrite sound_of_updateNote, (IH Hl). reflexivity.
    + exact (IH Hl).
  - intros action Hna snd Hin. unfold playHitNote in *.
    apply in_map_iff in Hin. destruct Hin as [n [<- Hn]].
    apply filter_In in Hn. destruct Hn as [Hn Hh].
    destruct action as [|note|key|]; unfold reduceState, Action_apply.
    + congruence.
    + apply in_map. apply filter_In. split; [|exact Hh].
      destruct (AddNotes_cases note s) as [[_ ->] | [_ ->]]; cbn [notes];
        [exact Hn | apply in_or_app; left; exact Hn].
    + rewrite KeyPress_notes. rewrite <- (sound_of_updateNote key n).
      apply in_map. apply filter_In. split.
      * apply in_map. exact Hn.
      * rewrite hit_updateNote, Hh. reflexivity.
    + apply in_map. apply filter_In. split; assumption.
Qed.

Lemma sounds_of_a_press_witness :
  playHitNote (KeyPress.apply KeyJ sample_state)
    = [sound_of (sample_note "1" 1 350 false)] /\
  incl (playHitNote (KeyPress.apply KeyJ sample_state))
       (playHitNote
          (reduceState (KeyPress.apply KeyJ sample_state) NewPlayRandomNote)).
Proof.
  split.
  - destruct (sounds_of_a_press sample_state) as [H _].
    rewrite H; [reflexivity|]. repeat constructor.
  - destruct (sounds_of_a_press (KeyPress.apply KeyJ sample_state))
      as [_ H].
    apply H. discriminate.
Defined.

(** * The chart stream *)

(** ** Emission times *)


Lemma mapi_from_times {A B : Type} (f : A -> nat -> B) (l : list (Q * A))
  (i : nat) :
  map fst (Rx.mapi_from f i l) = map fst l.
Proof.
  revert i. induction l as [|[t x] l IH]; intro i; simpl; [reflexivity|].
  rewrite IH. reflexivity.
Qed.

Lemma mapi_from_plain {A B : Type} (g : A -> B) (l : list (Q * A)) (i : nat) :
  Rx.mapi_from (fun x _ => g x) i l = map (fun e => (fst e, g (snd e))) l.
Proof.
  revert i. induction l as [|[t x] l IH]; intro i; simpl; [reflexivity|].
  rewrite IH. reflexivity.
Qed.





Section Stream.
Variable parseInt : string -> Z.
Variable parseFloat : string -> Q.
Variable csvContents : string.

Let chart := chartNotes parseInt parseFloat csvContents.
Let notes_ := scheduledNotes parseInt parseFloat csvContents.
Let stream := parseCSV parseInt parseFloat csvContents.



Lemma parseCSV_events :
  events stream
  = events notes_
    ++ [(completion notes_ + (0 + Rx.due (Constants.NOTE_FALL_TIME + 2000)),
         gameEndNote)].
Proof. reflexivity. Qed.


(** ** Note ids *)

Lemma index_to_string_inj : Injective index_to_string.
Proof.
  intros i j H. unfold index_to_string in H.
  assert (E : Some (Nat.to_uint i) = Some (Nat.to_uint j)).
  { rewrite <- !NilEmpty.usu. rewrite H. reflexivity. }
  injection E as E.
  rewrite <- (Unsigned.of_to i), <- (Unsigned.of_to j), E. reflexivity.
Qed.

Lemma mapi_from_ids (l : list (Q * string)) (i : nat) :
  map (fun e => id (snd e))
      (Rx.mapi_from (csvLineToNote parseInt parseFloat) i l)
  = map index_to_string (seq i (List.length l)).
Proof.
  revert i. induction l as [|[t x] l IH]; intro i; simpl; [reflexivity|].
  rewrite IH. reflexivity.
Qed.

(** X12.  The ids of the notes of a chart stream, the sentinel included,
    are pairwise distinct. *)
Theorem chart_stream_ids_distinct :
  NoDup (map (fun e => id (snd e)) (events stream)).
Proof.
  assert (Hc : NoDup (map id (map snd (events chart)))).
  { rewrite map_map. unfold chart, chartNotes, Rx.map. cbn [events].
    rewrite mapi_from_ids.
    apply Injective_map_NoDup; [exact index_to_string_inj | apply seq_NoDup]. }
  pose proof (scheduledNotes_perm parseInt parseFloat csvContents) as Hp.
  fold notes_ chart in Hp.
  assert (Hn : NoDup (map id (map snd (events notes_)))).
  { apply (Permutation_NoDup
             (Permutation_map id (Permutation_sym Hp)) Hc). }
  rewrite parseCSV_events, map_app. cbn [map snd id gameEndNote].
  apply (Permutation_NoDup (Permutation_cons_append _ _)).
  rewrite map_map in Hn. constructor; [|exact Hn].
  intro Hin. apply in_map_iff in Hin. destruct Hin as [e [He Hin]].
  apply (chartNotes_ids parseInt parseFloat csvContents (snd e));
    [|exact He].
  apply (Permutation_in _ Hp). apply in_map. exact Hin.
Qed.

(** ** The two streams of main.ts *)

Lemma gameEnd_stays (actions : list Action) (s : State) :
  gameEnd s = true -> gameEnd (run s actions) = true.
Proof.
  revert s. induction actions as [|a l IH]; intros s H; simpl; [exact H|].
  apply IH. destruct a as [|note|key|]; simpl; try exact H.
  destruct (AddNotes_cases note s) as [[_ ->] | [_ ->]];
    [reflexivity | exact H].
Qed.

Lemma sentinel_ends_game (actions : list Action) (s : State) :
  In (NewAddNotes gameEndNote) actions -> gameEnd (run s actions) = true.
Proof.
  revert s. induction actions as [|a l IH]; intros s Hin; [contradiction|].
  destruct Hin as [-> | Hin]; simpl.
  - apply gameEnd_stays. reflexivity.
  - apply IH. exact Hin.
Qed.

(** X13.  The actions of [userPlayableNotes$] are the AddNotes of the chart
    notes played by the user, in emission order, and then the AddNotes of the
    sentinel; so a game that receives all of them, with any ticks, key
    presses and other actions in between, ends with [gameEnd = true]. *)
Theorem user_stream_ends_the_game :
  map snd (events (userPlayableNotes stream))
    = map NewAddNotes
          (filter (fun n => user_played n) (map snd (events notes_)))
      ++ [NewAddNotes gameEndNote] /\
  (forall actions,
     incl (map snd (events (userPlayableNotes stream))) actions ->
     gameEnd (run initialState actions) = true).
Proof.
  assert (E : map snd (events (userPlayableNotes stream))
              = map NewAddNotes
                    (filter (fun n => user_played n)
                            (map snd (events notes_)))
                ++ [NewAddNotes gameEndNote]).
  { unfold userPlayableNotes, Rx.map, Rx.filter. cbn [events].
    rewrite mapi_from_plain, map_map. cbn [snd].
    rewrite parseCSV_events, filter_app, map_app. cbn [filter snd map].
    cbn [user_played gameEndNote]. cbn [map]. f_equal.
    induction (events notes_) as [|e l IH]; [reflexivity|].
    cbn [filter map snd]. destruct (user_played (snd e)); cbn [map snd];
      rewrite IH; reflexivity. }
  split; [exact E|].
  intros actions Hincl. apply sentinel_ends_game. apply Hincl.
  rewrite E. apply in_or_app. right. left. reflexivity.
Qed.

End Stream.

Lemma user_stream_ends_the_game_witness :
  let stream := parseCSV sample_parseInt sample_parseFloat two_rows in
  gameEnd
    (run initialState
       (NewTick
        :: map snd (events (userPlayableNotes stream))
        ++ [NewKeyPress KeyH]))
  = true.
Proof.
  intro stream.
  destruct (user_stream_ends_the_game
              sample_parseInt sample_parseFloat two_rows) as [_ H].
  apply H. intros a Ha. right. apply in_or_app. left. exact Ha.
Defined.

Section Stream2.
Variable parseInt : string -> Z.
Variable parseFloat : string -> Q.
Variable csvContents : string.

Let notes_ := scheduledNotes parseInt parseFloat csvContents.
Let stream := parseCSV parseInt parseFloat csvContents.

End Stream2.

(** ** The notes of the chart rows *)

(** X15.  The note of a chart row starts at [y = 0], not hit, with the row
    index as id; when its pitch is not negative its lane is the lane of one
    of the four keys; when its pitch is negative and not a multiple of 4 its
    lane is the lane of no key, and no key hits it wherever it is. *)
Theorem chart_note_lane (parseInt : string -> Z) (parseFloat : string -> Q)
  (line : string) (index : nat) :
  let n := csvLineToNote parseInt parseFloat line index in
  y n = 0 /\ hit n = false /\ id n = index_to_string index /\
  ((0 <= pitch n)%Z -> exists key, column n = KEY_BINDINGS key) /\
  ((pitch n < 0)%Z -> Z.rem (pitch n) 4 <> 0%Z ->
   forall key k, KeyPress.isNoteHittable key (moved k n) = false).
Proof.
  intro n. split; [reflexivity|]. split; [reflexivity|].
  split; [reflexivity|].
  assert (Ec : column n = Z.rem (pitch n) 4) by reflexivity.
  split.
  - intro Hp. rewrite Ec, Z.rem_mod_nonneg by lia.
    pose proof (Z.mod_pos_bound (pitch n) 4).
    assert (Hc : (pitch n mod 4 = 0 \/ pitch n mod 4 = 1 \/
                  pitch n mod 4 = 2 \/ pitch n mod 4 = 3)%Z) by lia.
    destruct Hc as [-> | [-> | [-> | ->]]];
      [exists KeyH | exists KeyJ | exists KeyK | exists KeyL]; reflexivity.
  - intros Hneg Hrem key k.
    destruct (KeyPress.isNoteHittable key (moved k n)) eqn:E; [|reflexivity].
    exfalso. apply isNoteHittable_spec in E. destruct E as [Hc _].
    destruct (moved_same_note k n) as [[_ [_ [Hcol _]]] _].
    rewrite Hcol, Ec in Hc.
    pose proof (Z.rem_nonpos (pitch n) 4) as Hle.
    assert ((Z.rem (pitch n) 4 <= 0)%Z) by (apply Hle; lia).
    destruct key; cbn [KEY_BINDINGS] in Hc; lia.
Qed.

Lemma chart_note_lane_witness :
  let n := csvLineToNote sample_parseInt sample_parseFloat
             "True,piano,80,62,5,6" 0 in
  pitch n = 62%Z /\ column n = KEY_BINDINGS KeyK /\
  (let n' := csvLineToNote (fun _ => (-1)%Z) sample_parseFloat
               "True,piano,80,-1,5,6" 1 in
   KeyPress.isNoteHittable KeyL (moved 110 n') = false).
Proof.
  intro n. split; [reflexivity|]. split; [reflexivity|].
  intro n'.
  destruct (chart_note_lane (fun _ => (-1)%Z) sample_parseFloat
              "True,piano,80,-1,5,6" 1) as [_ [_ [_ [_ H]]]].
  apply H; [reflexivity | discriminate].
Defined.

(** * The random streams *)

Lemma hash_range (seed : Z) :
  (- (2 ^ 31 - 1) <= RNG.hash seed <= 2 ^ 31 - 1)%Z.
Proof.
  unfold RNG.hash, RNG.m. change 0x80000000%Z with (2 ^ 31)%Z.
  set (x := number_add (number_mul RNG.a seed) RNG.c).
  pose proof (Z.rem_bound_abs x (2 ^ 31)) as H.
  assert (H' : (Z.abs (Z.rem x (2 ^ 31)) < Z.abs (2 ^ 31))%Z)
    by (apply H; discriminate).
  change (Z.abs (2 ^ 31)) with (2 ^ 31)%Z in H'. lia.
Qed.

(** X16.  For every seed of at most 2^53 in absolute value, negative ones
    too, [hash seed] is strictly between [-2^31] and [2^31], and
    [scale (hash seed)] is between -3 and 1. *)
Theorem rng_range_for_all_seeds (seed : Z) :
  (Z.abs seed <= 2 ^ 53)%Z ->
  (- 2 ^ 31 < RNG.hash seed < 2 ^ 31)%Z /\
  -3 <= RNG.scale (RNG.hash seed) /\ RNG.scale (RNG.hash seed) <= 1.
Proof.
  intros _. pose proof (hash_range seed) as [Hlo Hhi].
  split; [lia|].
  unfold RNG.scale, RNG.m.
  assert (Hd : inject_Z 0x80000000 - 1 == 2147483647) by reflexivity.
  rewrite Hd.
  assert (H0 : -2147483647 <= inject_Z (RNG.hash seed)).
  { change (-2147483647) with (inject_Z (-2147483647)).
    rewrite <- Zle_Qle. exact Hlo. }
  assert (H1 : inject_Z (RNG.hash seed) <= 2147483647).
  { change 2147483647 with (inject_Z 2147483647). rewrite <- Zle_Qle.
    exact Hhi. }
  assert (Hq : -2 <= 2 * inject_Z (RNG.hash seed) / 2147483647 /\
               2 * inject_Z (RNG.hash seed) / 2147483647 <= 2).
  { split.
    - apply Qle_shift_div_l; [reflexivity | lra].
    - apply Qle_shift_div_r; [reflexivity | lra]. }
  destruct Hq. split; lra.
Qed.

Lemma rng_range_for_all_seeds_witness :
  (- 2 ^ 31 < RNG.hash (-12345) < 2 ^ 31)%Z /\
  -3 <= RNG.scale (RNG.hash (-12345)) /\
  RNG.scale (RNG.hash (-12345)) <= 1.
Proof.
  apply (rng_range_for_all_seeds (-12345)). vm_compute. discriminate.
Defined.

Lemma scan_from_times {A B : Type} (f : B -> A -> B) (acc : B)
  (l : list (Q * A)) :
  map fst (Rx.scan_from f acc l) = map fst l.
Proof.
  revert acc. induction l as [|[t x] l IH]; intro acc; simpl; [reflexivity|].
  rewrite IH. reflexivity.
Qed.

Lemma hashes_values {T : Type} (l : list (Q * T)) (seed : Z) :
  map snd (Rx.scan_from (fun acc (_ : T) => RNG.hash acc) seed l)
  = map (fun i => Nat.iter (S i) RNG.hash seed) (seq 0 (List.length l)).
Proof.
  revert seed. induction l as [|[t x] l IH]; intro seed; [reflexivity|].
  cbn [Rx.scan_from map snd List.length seq]. rewrite IH. f_equal.
  rewrite <- seq_shift, map_map. apply map_ext. intro i.
  symmetry. apply (Nat.iter_succ_r (S i)).
Qed.

Lemma hashes_in_range {T : Type} (l : list (Q * T)) (seed : Z) :
  (0 <= seed)%Z ->
  Forall (fun e => (0 <= snd e <= 2 ^ 31 - 1)%Z)
         (Rx.scan_from (fun acc (_ : T) => RNG.hash acc) seed l).
Proof.
  revert seed. induction l as [|[t x] l IH]; intros seed Hs; simpl;
    constructor.
  - apply hash_nonneg_seed. exact Hs.
  - apply IH. apply hash_nonneg_seed. exact Hs.
Qed.

Lemma rng_events {T : Type} (source : Observable T) (seed : Z) :
  events (createRngStreamFromSource source seed)
  = map (fun e => (fst e, RNG.scale (snd e))) (hashes source seed).
Proof.
  unfold createRngStreamFromSource, Rx.map, Rx.scan, hashes. cbn [events].
  apply mapi_from_plain.
Qed.

(** X17.  With a seed of at most 2^53 in absolute value, the random stream
    emits one value for each source value, at the same time; the value
    number [i] (from 0) is the seed hashed [i + 1] times and scaled, and when
    the seed is not negative every value is between -1 and 1. *)
Theorem rng_stream_values {T : Type} (source : Observable T) (seed : Z) :
  (Z.abs seed <= 2 ^ 53)%Z ->
  let rng := createRngStreamFromSource source seed in
  map fst (events rng) = map fst (events source) /\
  map snd (events rng)
    = map (fun i => RNG.scale (Nat.iter (S i) RNG.hash seed))
          (seq 0 (List.length (events source))) /\
  ((0 <= seed)%Z ->
   Forall (fun e => -1 <= snd e /\ snd e <= 1) (events rng)).
Proof.
  intros _ rng. unfold rng. rewrite rng_events. unfold hashes.
  split; [|split].
  - rewrite map_map. cbn [fst].
    rewrite <- (scan_from_times (fun acc (_ : T) => RNG.hash acc) seed).
    reflexivity.
  - rewrite map_map. cbn [snd].
    rewrite <- (map_map snd RNG.scale), hashes_values, map_map. reflexivity.
  - intro Hs. apply Forall_map.
    eapply Forall_impl; [|apply hashes_in_range; exact Hs].
    intros e He. cbn [snd]. apply scale_bounds. exact He.
Qed.

Lemma rng_stream_values_witness :
  let source := Rx.from [NewTick; NewTick; NewTick] in
  map snd (events (createRngStreamFromSource source 12345%Z))
    = map (fun i => RNG.scale (Nat.iter (S i) RNG.hash 12345%Z))
          [0; 1; 2]%nat /\
  Forall (fun e => -1 <= snd e /\ snd e <= 1)
         (events (createRngStreamFromSource source 12345%Z)).
Proof.
  intro source.
  assert (Hb : (Z.abs 12345 <= 2 ^ 53)%Z) by (vm_compute; discriminate).
  destruct (rng_stream_values source 12345%Z Hb) as [_ [Hv H]].
  split; [exact Hv | apply H; lia].
Defined.

Lemma pitch_of_hash (h : Z) :
  (0 <= h <= 2 ^ 31 - 1)%Z ->
  let r := RNG.scale h in
  (20 <= Qfloor (20 + ((r + 1) / 2) * (110 - 20)) <= 110)%Z /\
  0 <= (r + 1) / 4 /\ (r + 1) / 4 <= 1 # 2 /\
  Qfloor (20 + ((r + 1) / 2) * (110 - 20))
    = Qfloor (20 + 180 * ((r + 1) / 4)).
Proof.
  intros Hh r. destruct (scale_bounds h Hh) as [Hlo Hhi]. fold r in Hlo, Hhi.
  assert (Ex : 20 + ((r + 1) / 2) * (110 - 20) == 20 + 45 * (r + 1))
    by field.
  assert (Ed : (r + 1) / 4 == (1 # 4) * (r + 1)) by field.
  split; [|split; [|split]].
  - rewrite Ex.
    assert (H20 : (Qfloor 20 <= Qfloor (20 + 45 * (r + 1)))%Z)
      by (apply Qfloor_resp_le; lra).
    assert (H110 : (Qfloor (20 + 45 * (r + 1)) <= Qfloor 110)%Z)
      by (apply Qfloor_resp_le; lra).
    split; [exact H20 | exact H110].
  - rewrite Ed. lra.
  - rewrite Ed. lra.
  - apply Qfloor_comp. rewrite Ex, Ed. ring.
Qed.

(** X18.  On the same source the pitch stream and the duration stream emit
    together, one value for each source value; every pitch is a whole number
    from 20 to 110, every duration is between 0 and 0.5, and each pitch is
    [floor (20 + 180 * duration)] of the duration emitted with it. *)
Theorem random_pitch_and_duration {T : Type} (source : Observable T) :
  Forall2 (fun p d =>
             fst p = fst d /\
             snd p = Math_floor (20 + 180 * snd d) /\
             (exists z, snd p = inject_Z z /\ (20 <= z <= 110)%Z) /\
             0 <= snd d /\ snd d <= 1 # 2)
          (events (createRandomPitchStream source))
          (events (createRandomDurationStream source)) /\
  List.length (events (createRandomPitchStream source))
    = List.length (events source).
Proof.
  unfold createRandomPitchStream, createRandomDurationStream, Rx.map.
  cbn [events]. rewrite !mapi_from_plain, rng_events. unfold hashes.
  pose proof (hashes_in_range (events source) 0 (Z.le_refl 0)) as Hr.
  split.
  - induction Hr as [|e l He Hl IH]; cbn [map]; constructor; [|exact IH].
    cbn [fst snd]. destruct (pitch_of_hash (snd e) He) as [Hp [Hd0 [Hd1 Eq]]].
    split; [reflexivity|]. split; [|split; [|split; assumption]].
    + unfold Math_floor. rewrite Eq. reflexivity.
    + eexists. split; [reflexivity | exact Hp].
  - rewrite !length_map.
    rewrite <- (length_map fst),
      (scan_from_times (fun acc (_ : T) => RNG.hash acc) 0%Z),
      length_map.
    reflexivity.
Qed.

(** * Note ids in the state *)

Lemma NoDup_map_filter_app {A B : Type} (f : A -> B) (P : A -> bool)
  (l : list A) (r : list B) :
  NoDup (map f l ++ r) -> NoDup (map f (filter P l) ++ r).
Proof.
  induction l as [|x l IH]; intro H; simpl in *; [exact H|].
  inversion H as [|? ? Hx Hl]; subst.
  destruct (P x); [|apply IH; exact Hl].
  simpl. constructor; [|apply IH; exact Hl].
  intro Hin. apply Hx. apply in_app_or in Hin. apply in_or_app.
  destruct Hin as [Hin | Hin]; [left | right; exact Hin].
  apply in_map_iff in Hin. destruct Hin as [x' [E Hx']].
  apply filter_In in Hx'. apply in_map_iff. exists x'. tauto.
Qed.

Lemma tick_notes_as_map (l : list Note) :
  tick_notes l
  = map Tick.updateNotePosition
        (filter (fun n => Tick.isNoteInPlayArea (Tick.updateNotePosition n))
                l).
Proof.
  unfold tick_notes. induction l as [|n l IH]; simpl; [reflexivity|].
  destruct (Tick.isNoteInPlayArea (Tick.updateNotePosition n)); simpl;
    rewrite IH; reflexivity.
Qed.

Lemma updateNote_id (key : Key) (n : Note) :
  id (KeyPress.updateNote key n) = id n.
Proof.
  unfold KeyPress.updateNote.
  destruct (KeyPress.isNoteHittable key n); reflexivity.
Qed.

Lemma added_ids_cons (action : Action) (rest : list Action) :
  added_ids (action :: rest) = map id (fresh_of action) ++ added_ids rest.
Proof. unfold added_ids. simpl. apply map_app. Qed.

Lemma ids_step (s : State) (action : Action) (rest : list Action) :
  NoDup (map id (notes s) ++ added_ids (action :: rest)) ->
  NoDup (map id (notes (reduceState s action)) ++ added_ids rest).
Proof.
  rewrite added_ids_cons. intro H.
  destruct action as [|note|key|]; unfold reduceState, Action_apply;
    cbn [fresh_of map app] in H.
  - rewrite Tick_notes. fold (tick_notes (notes s)).
    rewrite tick_notes_as_map, map_map. cbn [Tick.updateNotePosition id].
    apply NoDup_map_filter_app. exact H.
  - destruct (AddNotes_cases note s) as [[E ->] | [E ->]]; cbn [notes].
    + rewrite E in H. exact H.
    + apply String.eqb_neq in E. rewrite E in H. cbn [map app] in H.
      rewrite map_app, <- app_assoc. exact H.
  - rewrite KeyPress_notes, map_map.
    rewrite (map_ext _ id (updateNote_id key)). exact H.
  - exact H.
Qed.

Lemma ids_run (actions : list Action) (s : State) :
  NoDup (map id (notes s) ++ added_ids actions) ->
  NoDup (map id (notes (run s actions))).
Proof.
  revert s. induction actions as [|a l IH]; intros s H.
  - simpl. unfold added_ids in H. simpl in H. rewrite app_nil_r in H. exact H.
  - simpl. apply IH. apply ids_step. exact H.
Qed.

(** X19.  When the notes that the AddNotes actions bring in have pairwise
    distinct ids, the notes of the state have pairwise distinct ids after
    any sequence of actions. *)
Theorem state_ids_distinct (actions : list Action) :
  NoDup (added_ids actions) ->
  NoDup (map id (notes (run initialState actions))).
Proof. intro H. apply ids_run. exact H. Qed.

Lemma state_ids_distinct_witness :
  let actions :=
    [NewAddNotes (sample_note "0" 0 0 false); NewTick;
     NewAddNotes (sample_note "1" 0 0 false); NewKeyPress KeyH;
     NewAddNotes gameEndNote] in
  NoDup (map id (notes (run initialState actions))).
Proof.
  intro actions. apply (state_ids_distinct actions).
  repeat constructor; simpl; intuition discriminate.
Defined.

(** * The canvas *)

Lemma Note_RADIUS_value : Note_RADIUS == 14 + (1 # 562949953421312).
Proof. vm_compute. reflexivity. Qed.

Lemma find_circle_none (i : string) (svg : list Circle) :
  ~ In i (map circle_id svg) ->
  find (fun e => String.eqb (circle_id e) i) svg = None.
Proof.
  induction svg as [|e svg IH]; intro H; simpl; [reflexivity|].
  destruct (String.eqb_spec (circle_id e) i) as [E | N].
  - exfalso. apply H. left. exact E.
  - apply IH. intro Hin. apply H. right. exact Hin.
Qed.

Lemma find_circle_app (i : string) (front svg : list Circle) :
  ~ In i (map circle_id front) ->
  find (fun e => String.eqb (circle_id e) i) (front ++ svg)
  = find (fun e => String.eqb (circle_id e) i) svg.
Proof.
  induction front as [|e front IH]; intro H; simpl; [reflexivity|].
  destruct (String.eqb_spec (circle_id e) i) as [E | N].
  - exfalso. apply H. left. exact E.
  - apply IH. intro Hin. apply H. right. exact Hin.
Qed.

Lemma removeChild_app (i : string) (front : list Circle) (e : Circle)
  (svg : list Circle) :
  ~ In i (map circle_id front) -> circle_id e = i ->
  removeChild i (front ++ e :: svg) = front ++ svg.
Proof.
  intros H He. induction front as [|e' front IH]; simpl.
  - rewrite He, String.eqb_refl. reflexivity.
  - destruct (String.eqb_spec (circle_id e') i) as [E | N].
    + exfalso. apply H. left. exact E.
    + rewrite IH; [reflexivity|]. intro Hin. apply H. right. exact Hin.
Qed.

Lemma setAttribute_cy_app (i : string) (v : Q) (front : list Circle)
  (e : Circle) (svg : list Circle) :
  ~ In i (map circle_id front) -> circle_id e = i ->
  setAttribute_cy i v (front ++ e :: svg)
  = front
    ++ {| circle_id := circle_id e; circle_r := circle_r e;
          circle_cx := circle_cx e; circle_cy := v;
          circle_fill := circle_fill e; circle_class := circle_class e |}
    :: svg.
Proof.
  intros H He. induction front as [|e' front IH]; simpl.
  - rewrite He, String.eqb_refl. reflexivity.
  - destruct (String.eqb_spec (circle_id e') i) as [E | N].
    + exfalso. apply H. left. exact E.
    + rewrite IH; [reflexivity|]. intro Hin. apply H. right. exact Hin.
Qed.

Lemma shown_ids (l : list Note) (i : string) :
  In i (map circle_id (shown l)) -> In i (map id l).
Proof.
  unfold shown. rewrite map_map. cbn [createNoteSvgElement circle_id].
  intro H. apply in_map_iff in H. destruct H as [n [E Hn]].
  apply filter_In in Hn. apply in_map_iff. exists n. tauto.
Qed.

Lemma shown_cons (n : Note) (l : list Note) :
  shown (n :: l)
  = if Qleb (y n) Constants.HIT_LINE_Y
    then createNoteSvgElement n :: shown l
    else shown l.
Proof.
  unfold shown. simpl. destruct (Qleb (y n) Constants.HIT_LINE_Y);
    reflexivity.
Qed.

Section Canvas.
Variable others : list string.

Lemma manage_present (note : Note) (front : list Circle) (e : Circle)
  (svg : list Circle) :
  plain others (id note) = true ->
  ~ In (id note) (map circle_id front) -> circle_id e = id note ->
  manageNoteElement others note (front ++ e :: svg)
  = Some (if Qleb (y note) Constants.HIT_LINE_Y
          then front
               ++ {| circle_id := circle_id e; circle_r := circle_r e;
                     circle_cx := circle_cx e; circle_cy := y note;
                     circle_fill := circle_fill e;
                     circle_class := circle_class e |}
               :: svg
          else front ++ svg).
Proof.
  intros Hf Hfront He. apply andb_true_iff in Hf. destruct Hf as [Hne Hf].
  apply negb_true_iff in Hne, Hf.
  unfold manageNoteElement, getElementById, Qgtb.
  fold (Qleb (y note) Constants.HIT_LINE_Y).
  rewrite Hne, Hf, (find_circle_app _ _ _ Hfront).
  cbn [find]. rewrite He, String.eqb_refl. cbn [option_map].
  destruct (Qleb (y note) Constants.HIT_LINE_Y); cbn [negb].
  - rewrite (setAttribute_cy_app _ _ _ _ _ Hfront He), He. reflexivity.
  - rewrite (removeChild_app _ _ _ _ Hfront He). reflexivity.
Qed.

Lemma manage_absent (note : Note) (svg : list Circle) :
  plain others (id note) = true ->
  ~ In (id note) (map circle_id svg) ->
  manageNoteElement others note svg
  = Some (if Qleb (y note) Constants.HIT_LINE_Y
          then svg ++ [createNoteSvgElement note]
          else svg).
Proof.
  intros Hf H. apply andb_true_iff in Hf. destruct Hf as [Hne Hf].
  apply negb_true_iff in Hne, Hf.
  unfold manageNoteElement, getElementById, Qgtb.
  fold (Qleb (y note) Constants.HIT_LINE_Y).
  rewrite Hne, Hf, (find_circle_none _ _ H). cbn [option_map].
  destruct (Qleb (y note) Constants.HIT_LINE_Y); reflexivity.
Qed.

(** Rendering the notes [map g l] on a canvas that shows the notes [l]
    behind the circles [front]: [g] changes neither id nor lane and leaves
    the notes past the hit line past it. *)
Lemma render_in_step (g : Note -> Note) :
  (forall n, id (g n) = id n) ->
  (forall n, column (g n) = column n) ->
  forall (l : list Note) (front : list Circle),
    (forall n, In n l ->
       Qleb (y n) Constants.HIT_LINE_Y = false ->
       Qleb (y (g n)) Constants.HIT_LINE_Y = false) ->
    (forall n, In n l -> plain others (id n) = true) ->
    NoDup (map circle_id front ++ map id l) ->
    manageAll others (map g l) (Some (front ++ shown l))
    = Some (front ++ shown (map g l)).
Proof.
  intros Hid Hcol. unfold manageAll.
  induction l as [|n l IH]; intros front Hpast Hfor Hnd; [reflexivity|].
  cbn [map fold_left]. cbn [map] in Hnd.
  pose proof (NoDup_remove_1 _ _ _ Hnd) as Hnd'.
  pose proof (NoDup_remove_2 _ _ _ Hnd) as Hnot.
  assert (Hfront : ~ In (id (g n)) (map circle_id front))
    by (rewrite Hid; intro H; apply Hnot; apply in_or_app; left; exact H).
  assert (Hrest : ~ In (id (g n)) (map circle_id (shown l))).
  { rewrite Hid. intro H. apply Hnot. apply in_or_app. right.
    apply shown_ids. exact H. }
  assert (Hpast' : forall n0, In n0 l ->
            Qleb (y n0) Constants.HIT_LINE_Y = false ->
            Qleb (y (g n0)) Constants.HIT_LINE_Y = false)
    by (intros n0 Hn0; apply Hpast; right; exact Hn0).
  assert (Hfor' : forall n0, In n0 l -> plain others (id n0) = true)
    by (intros n0 Hn0; apply Hfor; right; exact Hn0).
  assert (Hfn : plain others (id (g n)) = true)
    by (rewrite Hid; apply Hfor; left; reflexivity).
  rewrite (shown_cons n l), (shown_cons (g n) (map g l)).
  destruct (Qleb (y n) Constants.HIT_LINE_Y) eqn:Ev.
  - rewrite (manage_present (g n) front (createNoteSvgElement n) (shown l)
               Hfn Hfront (eq_sym (Hid n))).
    destruct (Qleb (y (g n)) Constants.HIT_LINE_Y) eqn:Ev'.
    + cbn [createNoteSvgElement circle_id circle_r circle_cx circle_fill
           circle_class].
      assert (Ec : {| circle_id := id n; circle_r := Note_RADIUS;
                      circle_cx := (column n * 20 + 20)%Z;
                      circle_cy := y (g n);
                      circle_fill := COLORS_at (column n);
                      circle_class := "note shadow" |}
                   = createNoteSvgElement (g n)).
      { unfold createNoteSvgElement. rewrite Hid, Hcol. reflexivity. }
      rewrite Ec.
      change (front ++ createNoteSvgElement (g n) :: shown l)
        with (front ++ [createNoteSvgElement (g n)] ++ shown l).
      rewrite app_assoc, IH;
        [rewrite <- app_assoc; reflexivity | exact Hpast' | exact Hfor'|].
      rewrite map_app, <- app_assoc.
      cbn [map app createNoteSvgElement circle_id].
      rewrite Hid. exact Hnd.
    + apply IH; assumption.
  - rewrite (Hpast n (or_introl eq_refl) Ev).
    rewrite manage_absent.
    + rewrite (Hpast n (or_introl eq_refl) Ev). apply IH; assumption.
    + exact Hfn.
    + rewrite map_app. intro H. apply in_app_or in H. tauto.
Qed.

Lemma render_same_notes (l : list Note) :
  (forall n, In n l -> plain others (id n) = true) ->
  NoDup (map id l) ->
  manageAll others l (Some (shown l)) = Some (shown l).
Proof.
  intros Hfor H.
  pose proof (render_in_step (fun n => n) (fun n => eq_refl)
                (fun n => eq_refl) l [] (fun n _ E => E) Hfor) as R.
  rewrite map_id in R. apply R. exact H.
Qed.
End Canvas.

Lemma past_line_after_tick (n : Note) :
  Qleb (y n) Constants.HIT_LINE_Y = false ->
  Qleb (y (Tick.updateNotePosition n)) Constants.HIT_LINE_Y = false.
Proof.
  intro H. cbn [Tick.updateNotePosition y].
  destruct (Qleb (y n + NOTE_VELOCITY) Constants.HIT_LINE_Y) eqn:E;
    [|reflexivity].
  apply Qleb_true in E. pose proof NOTE_VELOCITY_positive.
  assert (Hle : y n <= Constants.HIT_LINE_Y) by lra.
  apply Qleb_true in Hle. congruence.
Qed.

Lemma past_line_after_press (key : Key) (n : Note) :
  Qleb (y n) Constants.HIT_LINE_Y = false ->
  Qleb (y (KeyPress.updateNote key n)) Constants.HIT_LINE_Y = false.
Proof.
  intro H. unfold KeyPress.updateNote.
  destruct (KeyPress.isNoteHittable key n); [reflexivity | exact H].
Qed.

Lemma shown_of_kept (l : list Note) :
  shown (filter (fun n => Tick.isNoteInPlayArea (Tick.updateNotePosition n))
                l)
  = shown l.
Proof.
  unfold shown. induction l as [|n l IH]; [reflexivity|].
  cbn [filter].
  destruct (Tick.isNoteInPlayArea (Tick.updateNotePosition n)) eqn:Ek.
  - cbn [filter]. destruct (Qleb (y n) Constants.HIT_LINE_Y);
      cbn [map]; rewrite IH; reflexivity.
  - destruct (Qleb (y n) Constants.HIT_LINE_Y) eqn:Ev; [|exact IH].
    exfalso. apply Qleb_true in Ev.
    assert (Hin : Tick.isNoteInPlayArea (Tick.updateNotePosition n) = true).
    { apply isNoteInPlayArea_true. cbn [Tick.updateNotePosition y]. lra. }
    congruence.
Qed.

(** The ids of the state after an action are ids of the state before it or
    of the note the action brings in. *)
Lemma ids_after_action (s : State) (action : Action) :
  incl (map id (notes (reduceState s action)))
       (map id (notes s) ++ map id (fresh_of action)).
Proof.
  destruct action as [|note|key|]; unfold reduceState, Action_apply;
    cbn [fresh_of].
  - rewrite Tick_notes. fold (tick_notes (notes s)).
    rewrite tick_notes_as_map, map_map. cbn [Tick.updateNotePosition id].
    intros i Hi. apply in_or_app. left.
    apply in_map_iff in Hi. destruct Hi as [n [<- Hn]].
    apply filter_In in Hn. apply in_map. tauto.
  - destruct (AddNotes_cases note s) as [[E ->] | [E ->]]; cbn [notes].
    + apply incl_appl. apply incl_refl.
    + apply String.eqb_neq in E. rewrite E, map_app. apply incl_refl.
  - rewrite KeyPress_notes, map_map.
    rewrite (map_ext _ id (updateNote_id key)).
    apply incl_appl. apply incl_refl.
  - apply incl_appl. apply incl_refl.
Qed.

Lemma render_after_action (others : list string) (s : State)
  (action : Action) :
  (forall i, In i (map id (notes s) ++ map id (fresh_of action)) ->
             plain others i = true) ->
  NoDup (map id (notes s) ++ map id (fresh_of action)) ->
  renderNotes others (reduceState s action) (shown (notes s))
  = Some (shown (notes (reduceState s action))).
Proof.
  intros Hfor H. pose proof (NoDup_app_remove_r _ _ H) as Hs.
  assert (Hfs : forall n, In n (notes s) -> plain others (id n) = true).
  { intros n Hn. apply Hfor. apply in_or_app. left. apply in_map. exact Hn. }
  unfold renderNotes.
  destruct action as [|note|key|]; unfold reduceState, Action_apply.
  - rewrite Tick_notes. fold (tick_notes (notes s)).
    rewrite tick_notes_as_map, <- (shown_of_kept (notes s)).
    apply (render_in_step others Tick.updateNotePosition (fun n => eq_refl)
             (fun n => eq_refl) _ []).
    + intros n _. apply past_line_after_tick.
    + intros n Hn. apply filter_In in Hn. apply Hfs. tauto.
    + cbn [map app].
      pose proof (NoDup_map_filter_app id
                    (fun n => Tick.isNoteInPlayArea
                                (Tick.updateNotePosition n))
                    (notes s) [] ) as Hf.
      rewrite !app_nil_r in Hf. apply Hf. exact Hs.
  - destruct (AddNotes_cases note s) as [[E ->] | [E ->]]; cbn [notes].
    + apply render_same_notes; assumption.
    + unfold manageAll. rewrite fold_left_app.
      fold (manageAll others (notes s) (Some (shown (notes s)))).
      rewrite (render_same_notes others _ Hfs Hs). cbn [fold_left].
      cbn [fresh_of] in H, Hfor. apply String.eqb_neq in E.
      rewrite E in H, Hfor. cbn [map] in H, Hfor.
      rewrite manage_absent.
      * unfold shown. rewrite filter_app, map_app. cbn [filter].
        destruct (Qleb (y note) Constants.HIT_LINE_Y); cbn [map];
          [reflexivity | rewrite app_nil_r; reflexivity].
      * apply Hfor. apply in_or_app. right. left. reflexivity.
      * intro Hin. apply shown_ids in Hin.
        apply (NoDup_remove_2 _ _ _ H). rewrite app_nil_r. exact Hin.
  - rewrite KeyPress_notes.
    apply (render_in_step others (KeyPress.updateNote key)
             (updateNote_id key) (updateNote_column key) _ []).
    + intros n _. apply past_line_after_press.
    + exact Hfs.
    + exact Hs.
  - apply render_same_notes; assumption.
Qed.

(** X20.  When the notes that come in have pairwise distinct ids, none of
    them empty or the id of another element of the document, and every state
    is rendered, the canvas shows after every action exactly the notes of the
    state that are not past the hit line, in order, each circle as
    [createNoteSvgElement] makes it from the note as it is now. *)
Theorem canvas_shows_state (others : list string) (actions : list Action) :
  NoDup (added_ids actions) ->
  (forall i, In i (added_ids actions) -> plain others i = true) ->
  play others initialState [] actions
  = Some (run initialState actions,
          shown (notes (run initialState actions))).
Proof.
  assert (H : forall l s,
            NoDup (map id (notes s) ++ added_ids l) ->
            (forall i, In i (map id (notes s) ++ added_ids l) ->
                       plain others i = true) ->
            play others s (shown (notes s)) l
            = Some (run s l, shown (notes (run s l)))).
  { induction l as [|a l IH]; intros s Hnd Hfor; [reflexivity|].
    cbn [play run fold_left].
    rewrite added_ids_cons, app_assoc in Hfor.
    rewrite render_after_action.
    - apply IH; [apply ids_step; exact Hnd|].
      intros i Hi. apply Hfor. apply in_app_or in Hi. apply in_or_app.
      destruct Hi as [Hi | Hi]; [left | right; exact Hi].
      apply ids_after_action. exact Hi.
    - intros i Hi. apply Hfor. apply in_or_app. left. exact Hi.
    - rewrite added_ids_cons, app_assoc in Hnd.
      apply (NoDup_app_remove_r _ _ Hnd). }
  intros Hnd Hfor. apply (H actions initialState); assumption.
Qed.

Lemma canvas_shows_state_witness :
  let actions :=
    NewAddNotes (sample_note "0" 1 0 false)
    :: ticks 112
    ++ [NewAddNotes (sample_note "1" 1 0 false); NewKeyPress KeyJ] in
  option_map (fun r => map (fun e => (circle_id e, circle_cy e)) (snd r))
             (play named_ids initialState [] actions)
  = Some [("1"%string, 0)].
Proof.
  intro actions.
  rewrite (canvas_shows_state named_ids actions).
  - vm_compute. reflexivity.
  - vm_compute. repeat constructor; simpl; intuition discriminate.
  - intros i Hi. vm_compute in Hi.
    destruct Hi as [<- | [<- | []]]; reflexivity.
Defined.

(** * The score on the display *)

(** X21.  After any sequence of actions from the initial state the score is
    a whole number that is not negative, so the [Math.round] that [render]
    applies before it shows the score changes nothing. *)
Theorem score_is_whole (actions : list Action) :
  let s := run initialState actions in
  (exists z : Z, (0 <= z)%Z /\ score s = inject_Z z) /\
  Math_round (score s) == score s.
Proof.
  intro s.
  destruct (score_inv_reachable s) as [[z [Hz Hs]] _].
  - apply reachable_run. constructor.
  - split; [exists z; auto|]. rewrite Hs. apply Math_round_inject_Z.
Qed.
